(** * passgen: the password composer, its word source and the Caesar transform

    A shallow embedding of the core of [src/passall.tsx] (the live module,
    imported by the entry point) and of the older composer kept in the
    repository next to it (the variant without the cipher), followed by the
    properties stated about them.

    Conventions of the embedding.
    - A JavaScript string is the list of its UTF-16 code units; a code unit
      is an integer ([Z]), so that [charCodeAt] is the element itself and
      [String.fromCharCode] is reduction modulo 2^16.
    - Numbers that the program uses as lengths, bounds and shifts are
      integers ([Z]); JavaScript's [%] is the truncated remainder [Z.rem].
    - [Math.random()] is read from a tape of draws; a draw is held by its
      exact value, a fraction in [0,1). The product of a draw and a number
      is taken by the engine in double arithmetic: [Math.floor(d * n)] is a
      function of the engine ([Engine]) of which only what holds of doubles
      is assumed.
    - The network is an oracle answering each request with the outcome of
      [fetch], the status flag and the decoded body, which may be any JSON
      value.
    - The shift of the Caesar transform is an integer; the statements that
      go beyond the shifts 1..25 of the page bound its magnitude by 2^52
      ([exactShift]), where every sum of the callback is an exact double.
    - An [async] function is a computation that ends in a value (the
      promise resolves) or in an exception (the promise rejects).
    - The rotation cursor is a natural number: it starts at 0 and is only
      ever incremented. Requested lengths are integers, as the slider of the
      page supplies them. *)

From Stdlib Require Import ZArith QArith List String Ascii Bool Lia Arith.
Import ListNotations.
Local Open Scope Z_scope.

(** ** Strings *)

Definition jsstring := list Z.

(** A literal of the source, as code units. *)
Definition js (s : string) : jsstring :=
  map (fun a => Z.of_N (N_of_ascii a)) (list_ascii_of_string s).

Definition len (s : jsstring) : Z := Z.of_nat (List.length s).

(** [s.charAt(i)]: the one-unit string at [i], or the empty string. *)
Definition charAt (s : jsstring) (i : Z) : jsstring :=
  if i <? 0 then []
  else match nth_error s (Z.to_nat i) with
       | Some c => [c]
       | None => []
       end.

(** The relative index of [slice]: negative counts from the end, and the
    result is clamped to [0, length]. *)
Definition clampIndex (n : Z) (i : Z) : Z :=
  if i <? 0 then Z.max (n + i) 0 else Z.min i n.

(** [s.slice(start, end)]. *)
Definition slice (s : jsstring) (start stop : Z) : jsstring :=
  let from := clampIndex (len s) start in
  let to := clampIndex (len s) stop in
  firstn (Z.to_nat (to - from)) (skipn (Z.to_nat from) s).

(** [s.slice(start)]. *)
Definition sliceFrom (s : jsstring) (start : Z) : jsstring :=
  slice s start (len s).

(** A string is truthy when it is not empty. *)
Definition truthy (s : jsstring) : bool :=
  match s with [] => false | _ => true end.

(** ** The Caesar transform *)

(** What [/[a-z]/gi] matches: without the [u] flag, case-insensitive
    matching never folds a unit above 127 onto an ASCII one, so the class
    is exactly the ASCII letters. *)
Definition isLowerUnit (c : Z) : bool := (97 <=? c) && (c <=? 122).
Definition isUpperUnit (c : Z) : bool := (65 <=? c) && (c <=? 90).
Definition isLetterUnit (c : Z) : bool := isLowerUnit c || isUpperUnit c.

Definition fromCharCode (n : Z) : Z := n mod 65536.

(** The replacement callback of [caesarCipher], on one matched unit. The
    sums are integer sums: those of the engine for every integer shift of
    magnitude at most 2^52, on which double addition is exact. *)
Definition shiftUnit (shift : Z) (char : Z) : Z :=
  let base := if isLowerUnit char then 97 else 65 in
  fromCharCode (Z.rem (char - base + shift + 26) 26 + base).

(** [text.replace(/[a-z]/gi, callback)]: every match is one unit long, so
    the replacement is a map over the units. *)
Definition caesarCipher (text : jsstring) (shift : Z) : jsstring :=
  map (fun c => if isLetterUnit c then shiftUnit shift c else c) text.

(** The per-character mapping as the specification words it: a letter moves
    forward by [shift] places inside the 26-letter alphabet of its own case,
    wrapping modulo 26; anything else passes through. *)
Definition caesarSpecUnit (shift : Z) (c : Z) : Z :=
  if isLowerUnit c then 97 + (c - 97 + shift) mod 26
  else if isUpperUnit c then 65 + (c - 65 + shift) mod 26
  else c.

Definition caesarSpec (text : jsstring) (shift : Z) : jsstring :=
  map (caesarSpecUnit shift) text.

(** ** Case conversion of the host *)

(** [toUpperCase] and [toLowerCase] are functions of the JavaScript engine.
    They are fixed on ASCII (only the 26 letters move) and follow the Unicode
    tables elsewhere, where a unit may even expand to several; the embedding
    takes them as an interface with exactly the ASCII behaviour pinned. *)
Definition isAsciiUnit (c : Z) : bool := (0 <=? c) && (c <? 128).
Definition asciiUpper (c : Z) : Z := if isLowerUnit c then c - 32 else c.
Definition asciiLower (c : Z) : Z := if isUpperUnit c then c + 32 else c.

Class CaseMapping : Type := {
  toUpperCase : jsstring -> jsstring;
  toLowerCase : jsstring -> jsstring;
  toUpperCase_ascii :
    forall s, forallb isAsciiUnit s = true -> toUpperCase s = map asciiUpper s;
  toLowerCase_ascii :
    forall s, forallb isAsciiUnit s = true -> toLowerCase s = map asciiLower s
}.

(** ** Randomness *)

(** One result of [Math.random()]: the fraction [num / (num + slack + 1)],
    which ranges over every rational of [0,1) and nothing else. *)
Record Draw : Type := { num : nat; slack : nat }.

Definition den (d : Draw) : Z := Z.of_nat (num d + slack d + 1).

(** The floor of the exact product of a draw and an integer. The engine's
    [Math.floor(d * n)] is this number whenever the product is a double. *)
Definition exactFloorTimes (d : Draw) (n : Z) : Z :=
  (Z.of_nat (num d) * n) / den d.

(** [d > 0.5] *)
Definition overHalf (d : Draw) : bool := den d <? 2 * Z.of_nat (num d).

(** ** The world outside: word providers *)

Inductive exn : Type :=
| AbortError      (* the 2-second timer fired *)
| NetworkError    (* fetch failed *)
| SyntaxError     (* the body is not JSON *)
| TypeError
| RangeError.

Inductive Completion (A : Type) : Type :=
| Normal (a : A)
| Throw (e : exn).
Arguments Normal {A} a.
Arguments Throw {A} e.

(** The request URLs, by template and parameter. *)
Inductive Url : Type :=
| RandomWordUrl (length : Z)
| DatamuseUrl (pattern : jsstring)
| WordnikUrl (minLength maxLength : Z)
| WordFormUrl (length : Z).

(** Decoded bodies: every value [response.json()] can resolve with. A
    number is held by its exact value, and [JsonInfinity] is what a literal
    beyond the range of doubles decodes to. An object is the list of its own
    properties, each key once. *)
#[local] Unset Elimination Schemes.
Inductive Json : Type :=
| JsonNull
| JsonBool (b : bool)
| JsonNumber (x : Q)
| JsonInfinity (negative : bool)
| JsonString (s : jsstring)
| JsonArray (items : list Json)
| JsonObject (fields : list (jsstring * Json)).
#[local] Set Elimination Schemes.

(** A JavaScript value as the parsers and [fetchRandomWord] handle it:
    [None] is [undefined]. *)
Definition Value : Type := option Json.

(** ** Arithmetic and coercions of the engine *)

(** What the program leaves to the engine beyond case conversion:
    - [floorTimes d n], the value of [Math.floor(d * n)] for a draw [d] and
      a length [n], computed in doubles; it is an index below [n] whenever
      [n] is positive, which is all that is assumed of it;
    - [propertyKey d v], the property key that [Math.floor(d * v)] names
      when [v] is the [length] property of a decoded object (or [undefined]);
    - [looseLe v n], the value of [v <= n] when [v] is not a number. *)
Class Engine : Type := {
  floorTimes : Draw -> Z -> Z;
  propertyKey : Draw -> Value -> jsstring;
  looseLe : Json -> Z -> bool;
  floorTimes_range : forall d n, 0 < n -> 0 <= floorTimes d n < n
}.

(** The outcome of one request: [fetch] rejects, or a response arrives with
    its [ok] flag and the result of decoding its body ([None]: not JSON). *)
Inductive Outcome : Type :=
| Rejects (e : exn)
| Responds (ok : bool) (body : option Json).

(** One pass of the provider loop, as observed from outside: which entry of
    [WORD_APIS] was used and the length it was asked for. *)
Record Attempt : Type := { provider : nat; bound : Z }.

Record Env : Type := {
  random : nat -> Draw;               (* the n-th call of Math.random() *)
  network : nat -> Url -> Outcome     (* the answer to the n-th attempt *)
}.

Record State : Type := {
  apiIndex : nat;                     (* let apiIndex = 0 *)
  draws : nat;                        (* calls of Math.random() so far *)
  attempts : list Attempt             (* provider attempts so far *)
}.

Definition initial : State := {| apiIndex := 0; draws := 0; attempts := [] |}.

(** ** Computations *)

Definition M (A : Type) : Type := Env -> State -> Completion A * State.

(** [m], started in [st], ends normally with [a] in [st']. *)
Definition runs {A} (m : M A) (env : Env) (st : State) (a : A) (st' : State) : Prop :=
  m env st = (Normal a, st').

Definition ret {A} (a : A) : M A := fun _ st => (Normal a, st).

Definition bind {A B} (m : M A) (k : A -> M B) : M B :=
  fun env st =>
    match m env st with
    | (Normal a, st') => k a env st'
    | (Throw e, st') => (Throw e, st')
    end.

Definition throw {A} (e : exn) : M A := fun _ st => (Throw e, st).

Definition lift {A} (c : Completion A) : M A := fun _ st => (c, st).

(** [try { m } catch (error) { handler }] *)
Definition tryCatch {A} (m : M A) (handler : exn -> M A) : M A :=
  fun env st =>
    match m env st with
    | (Normal a, st') => (Normal a, st')
    | (Throw e, st') => handler e env st'
    end.

Declare Scope js_scope.
Delimit Scope js_scope with js.
Notation "x <- m ;; k" := (bind m (fun x => k))
  (at level 100, m at next level, right associativity) : js_scope.
Notation "m ;;; k" := (bind m (fun _ => k))
  (at level 100, right associativity) : js_scope.
Local Open Scope js_scope.

(** [Math.random()] *)
Definition mathRandom : M Draw :=
  fun env st =>
    (Normal (random env (draws st)),
     {| apiIndex := apiIndex st; draws := S (draws st); attempts := attempts st |}).

(** [Math.floor(Math.random() * n)] *)
Definition randomIndex `{Engine} (n : Z) : M Z :=
  d <- mathRandom ;; ret (floorTimes d n).

Definition getApiIndex : M nat := fun _ st => (Normal (apiIndex st), st).

(** [apiIndex++] *)
Definition incrApiIndex : M unit :=
  fun _ st =>
    (Normal tt,
     {| apiIndex := S (apiIndex st); draws := draws st; attempts := attempts st |}).

Definition logAttempt (a : Attempt) : M unit :=
  fun _ st =>
    (Normal tt,
     {| apiIndex := apiIndex st; draws := draws st;
        attempts := attempts st ++ [a] |}).

(** [fetchWithTimeout(url)]: the timer aborts a request that is still
    pending after 2000 ms, which the caller sees as a rejection; whatever
    [fetch] throws is thrown again once the timer is cleared. *)
Definition fetchWithTimeout (url : Url) : M (bool * option Json) :=
  fun env st =>
    match network env (List.length (attempts st)) url with
    | Rejects e => (Throw e, st)
    | Responds ok body => (Normal (ok, body), st)
    end.

(** [await response.json()] *)
Definition responseJson (body : option Json) : M Json :=
  match body with
  | Some data => ret data
  | None => throw SyntaxError
  end.

(** ** Constants of the module *)

(** The symbol set; unit 34 is the double quote and the last unit is the
    backslash. *)
Definition symbols : jsstring :=
  js "!@#$%^&*()_+{}:" ++ [34] ++ js "<>?|[];',./`~\".
Definition lower : jsstring := js "abcdefghijklmnopqrstuvwxyz".
Definition upper `{CaseMapping} : jsstring := toUpperCase lower.
Definition numbers : jsstring := js "0123456789".

Inductive WordCase : Type := CaseLower | CaseUpper | CaseRandom.

Module Options.
Record t : Type := {
  lower : bool; upper : bool; numbers : bool; symbols : bool; word : bool
}.
End Options.

(** ** The provider table *)

Record WordApi : Type := {
  name : string;
  url : Z -> Completion Url;
  parser : Json -> M Value
}.

(** ['?'.repeat(len)] throws on a negative count. *)
Definition repeatQuestion (count : Z) : Completion jsstring :=
  if count <? 0 then Throw RangeError
  else Normal (repeat 63 (Z.to_nat count)).

(** Keys of decoded objects, compared unit by unit. *)
Fixpoint sameKey (a b : jsstring) : bool :=
  match a, b with
  | [], [] => true
  | x :: a', y :: b' => (x =? y) && sameKey a' b'
  | _, _ => false
  end.

(** [object[key]] for a key that no prototype defines: the own property, or
    [undefined]. *)
Fixpoint getOwn (key : jsstring) (fields : list (jsstring * Json)) : Value :=
  match fields with
  | [] => None
  | (k, v) :: rest => if sameKey key k then Some v else getOwn key rest
  end.

(** [s[i]]: the one-unit string at [i], or [undefined]. *)
Definition stringAt (s : jsstring) (i : Z) : Value :=
  match charAt s i with
  | [] => None
  | c => Some (JsonString c)
  end.

(** [items[i]] *)
Definition itemAt (items : list Json) (i : Z) : Value :=
  if i <? 0 then None else nth_error items (Z.to_nat i).

(** [data[0]]: reading a property of [null] throws; booleans and numbers
    have no such property; a string gives its first unit, an array its first
    item, an object its property named 0. *)
Definition element0 (data : Json) : Completion Value :=
  match data with
  | JsonNull => Throw TypeError
  | JsonBool _ | JsonNumber _ | JsonInfinity _ => Normal None
  | JsonString s => Normal (stringAt s 0)
  | JsonArray items => Normal (itemAt items 0)
  | JsonObject fields => Normal (getOwn (js "0") fields)
  end.

(** [x?.word]: only an object can own a property [word]. *)
Definition wordField (x : Value) : Value :=
  match x with
  | Some (JsonObject fields) => getOwn (js "word") fields
  | _ => None
  end.

(** [data[Math.floor(Math.random() * data.length)]]: [Math.random] is called
    first, then [data.length] is read, which throws on [null]. A boolean or a
    number has no [length], the index is [NaN] and the property undefined.
    The [length] of a decoded object is whatever value it owns under that
    name. *)
Definition randomElement `{Engine} (data : Json) : M Value :=
  d <- mathRandom ;;
  match data with
  | JsonNull => throw TypeError
  | JsonBool _ | JsonNumber _ | JsonInfinity _ => ret None
  | JsonString s => ret (stringAt s (floorTimes d (len s)))
  | JsonArray items =>
      ret (itemAt items (floorTimes d (Z.of_nat (List.length items))))
  | JsonObject fields =>
      ret (getOwn (propertyKey d (getOwn (js "length") fields)) fields)
  end.

Definition WORD_APIS `{Engine} : list WordApi :=
  [ {| name := "RandomWordAPI";
       url := fun len => Normal (RandomWordUrl len);
       parser := fun data => lift (element0 data) |};
    {| name := "Datamuse";
       url := fun len =>
         match repeatQuestion len with
         | Normal q => Normal (DatamuseUrl q)
         | Throw e => Throw e
         end;
       parser := fun data => x <- randomElement data ;; ret (wordField x) |};
    {| name := "Wordnik";
       url := fun len => Normal (WordnikUrl len len);
       parser := fun data => x <- lift (element0 data) ;; ret (wordField x) |};
    {| name := "WiktionaryBackups";
       url := fun len => Normal (WordFormUrl len);
       parser := fun data => lift (element0 data) |} ].

(** Truthiness of a decoded value. *)
Definition truthyValue (v : Json) : bool :=
  match v with
  | JsonNull => false
  | JsonBool b => b
  | JsonNumber x => negb (Qeq_bool x 0)
  | JsonInfinity _ => true
  | JsonString s => truthy s
  | JsonArray _ | JsonObject _ => true
  end.

(** [word.length]: the number of units of a string or of items of an array,
    the own property of an object, nothing for a boolean or a number. *)
Inductive Length : Type :=
| NoLength
| Count (n : Z)
| OwnLength (v : Json).

Definition lengthOf (word : Json) : Length :=
  match word with
  | JsonString s => Count (len s)
  | JsonArray items => Count (Z.of_nat (List.length items))
  | JsonObject fields =>
      match getOwn (js "length") fields with
      | Some v => OwnLength v
      | None => NoLength
      end
  | _ => NoLength
  end.

(** [word.length <= maxLength]: false for [undefined]; numbers are compared
    by value; any other value is first converted by the engine. *)
Definition lengthLe `{Engine} (x : Length) (maxLength : Z) : bool :=
  match x with
  | NoLength => false
  | Count n => n <=? maxLength
  | OwnLength (JsonNumber q) => Qle_bool q (inject_Z maxLength)
  | OwnLength (JsonInfinity negative) => negative
  | OwnLength v => looseLe v maxLength
  end.

(** [if (word && word.length <= maxLength) return word]: the value itself
    is returned, whatever its type. *)
Definition accepted `{Engine} (word : Value) (maxLength : Z) : Value :=
  match word with
  | Some v =>
      if truthyValue v && lengthLe (lengthOf v) maxLength then Some v
      else None
  | None => None
  end.

(** ** Word source and composer *)

Definition consonants : jsstring := js "bcdfghjklmnpqrstvwxyz".
Definition vowels : jsstring := js "aeiou".

(** The loop of [generateFallbackWord], [n] passes from index [i]. *)
Fixpoint fallbackLoop `{Engine} (n : nat) (i : Z) (word : jsstring)
  : M jsstring :=
  match n with
  | O => ret word
  | S n' =>
      d <- mathRandom ;;
      let c := if Z.rem i 2 =? 0
               then charAt consonants (floorTimes d (len consonants))
               else charAt vowels (floorTimes d (len vowels)) in
      fallbackLoop n' (i + 1) (word ++ c)
  end.

Definition generateFallbackWord `{Engine} (length : Z) : M jsstring :=
  fallbackLoop (Z.to_nat length) 0 [].

(** The loop of [generateRandomChars]. *)
Fixpoint randomCharsLoop `{Engine} (n : nat) (charSet result : jsstring)
  : M jsstring :=
  match n with
  | O => ret result
  | S n' =>
      d <- mathRandom ;;
      randomCharsLoop n' charSet
        (result ++ charAt charSet (floorTimes d (len charSet)))
  end.

Definition generateRandomChars `{Engine} (length : Z) (charSet : jsstring)
  : M jsstring :=
  randomCharsLoop (Z.to_nat length) charSet [].

Section Core.

Context `{CaseMapping} `{Engine}.

(** The word is split into its units, each unit is converted on its own
    after one draw, and the pieces are joined again. *)
Fixpoint randomizeCase (word : jsstring) : M jsstring :=
  match word with
  | [] => ret []
  | c :: rest =>
      d <- mathRandom ;;
      let c' := if overHalf d then toUpperCase [c] else toLowerCase [c] in
      rest' <- randomizeCase rest ;;
      ret (c' ++ rest')
  end.

Definition applyWordCase (word : jsstring) (caseType : WordCase) : M jsstring :=
  match caseType with
  | CaseLower => ret (toLowerCase word)
  | CaseUpper => ret (toUpperCase word)
  | CaseRandom => randomizeCase word
  end.

(** The call [applyWordCase(word, wordCase)] of the composers, on the value
    the word source resolved with: a value that is not a string has no
    callable [toLowerCase], [toUpperCase] or [split], and the call throws. *)
Definition applyWordCaseTo (word : Json) (caseType : WordCase) : M jsstring :=
  match word with
  | JsonString w => applyWordCase w caseType
  | _ => throw TypeError
  end.

(** The character set both composers assemble from the flags. *)
Definition charSetOf (options : Options.t) : jsstring :=
  (if Options.lower options then lower else []) ++
  (if Options.upper options then upper else []) ++
  (if Options.numbers options then numbers else []) ++
  (if Options.symbols options then symbols else []).

(** The built-in dictionary differs between the two files. *)
Variable localWords : list jsstring.

(** The [try] block of one pass with its [catch]: [Some v] is [return v];
    [None] is [continue], or the end of the [catch] block after the
    debug line. *)
Definition tryProvider (api : WordApi) (maxLength : Z) : M Value :=
  tryCatch
    (u <- lift (url api maxLength) ;;
     response <- fetchWithTimeout u ;;
     if negb (fst response) then ret None
     else
       data <- responseJson (snd response) ;;
       word <- parser api data ;;
       ret (accepted word maxLength))
    (fun _ => ret None).

(** One pass of the provider loop. An index outside the table would make
    [api] undefined, and reading [api.name] in the [catch] block would
    throw. *)
Definition attempt (maxLength : Z) : M Value :=
  i <- getApiIndex ;;
  let k := (i mod List.length WORD_APIS)%nat in
  incrApiIndex ;;;
  match nth_error WORD_APIS k with
  | None => throw TypeError
  | Some api =>
      logAttempt {| provider := k; bound := maxLength |} ;;;
      tryProvider api maxLength
  end.

(** [for (let i = 0; i < attempts; i++)], with [n] passes left. *)
Fixpoint sweep (n : nat) (maxLength : Z) : M Value :=
  match n with
  | O => ret None
  | S n' =>
      r <- attempt maxLength ;;
      match r with
      | Some v => ret (Some v)
      | None => sweep n' maxLength
      end
  end.

Definition validWords (maxLength : Z) : list jsstring :=
  filter (fun word => len word <=? maxLength) localWords.

(** [validWords[...] || generateFallbackWord(maxLength)] *)
Definition pickLocal (maxLength : Z) : M jsstring :=
  let valid := validWords maxLength in
  i <- randomIndex (Z.of_nat (List.length valid)) ;;
  match nth_error valid (Z.to_nat i) with
  | Some w => if truthy w then ret w else generateFallbackWord maxLength
  | None => generateFallbackWord maxLength
  end.

(** The declared result is a string; the value returned from inside the
    loop is whatever passed the test. *)
Definition fetchRandomWord (maxLength : Z) : M Json :=
  r <- sweep (List.length WORD_APIS) maxLength ;;
  match r with
  | Some v => ret v
  | None => w <- pickLocal maxLength ;; ret (JsonString w)
  end.

(** Splicing the word into the filler at a random offset. *)
Definition spliceWord (caseAdjustedWord : jsstring) (remainingLength : Z)
    (charSet : jsstring) : M jsstring :=
  randomChars <- generateRandomChars remainingLength charSet ;;
  insertPos <- randomIndex (len randomChars + 1) ;;
  ret (slice randomChars 0 insertPos ++ caseAdjustedWord
         ++ sliceFrom randomChars insertPos).

End Core.

(** ** [src/passall.tsx] *)

Module Passall.

Definition localWords : list jsstring :=
  filter (fun word => 4 <=? len word)
    (map js
      [ "avocado"; "bamboo"; "cascade"; "delight"; "echo";
        "flamingo"; "gazelle"; "harmony"; "ivory"; "jubilee";
        "koala"; "lagoon"; "mango"; "nirvana"; "octopus";
        "penguin"; "quasar"; "rainbow"; "sunset"; "tundra";
        "umbra"; "vortex"; "waterfall"; "xylophone"; "yellow";
        "zebra"; "alpine"; "blossom"; "coral"; "dolphin";
        "evergreen"; "firefly"; "glacier"; "honeydew"; "island";
        "jungle"; "kiwi"; "lighthouse"; "mountain"; "nebula";
        "oasis"; "peacock"; "quartz"; "river"; "starlight";
        "tropical"; "unicorn"; "volcano"; "whirlpool"; "xenon"; "cats";
        "dogs"; "duck"; "golf"; "jazz"; "owls"; "moon" ]%string).

Definition fetchRandomWord `{Engine} : Z -> M Json :=
  fetchRandomWord localWords.

Definition generatePassword `{CaseMapping} `{Engine} (length : Z)
    (options : Options.t) (wordCase : WordCase) : M jsstring :=
  let charSet := charSetOf options in
  if negb (truthy charSet) && negb (Options.word options) then ret []
  else if Options.word options then
    word <- fetchRandomWord (Z.min length 8) ;;
    caseAdjustedWord <- applyWordCaseTo word wordCase ;;
    let remainingLength := length - len caseAdjustedWord in
    if truthy charSet && (0 <? remainingLength) then
      spliceWord caseAdjustedWord remainingLength charSet
    else if truthy charSet && (remainingLength <=? 0) then
      ret (slice caseAdjustedWord 0 length)
    else ret (slice caseAdjustedWord 0 length)
  else generateRandomChars length charSet.

End Passall.

(** ** The older composer (the file without the cipher) *)

Module Older.

Definition localWords : list jsstring :=
  filter (fun word => 4 <=? len word)
    (map js
      [ "avocado"; "bamboo"; "cascade"; "delight"; "echo";
        "flamingo"; "gazelle"; "harmony"; "ivory"; "jubilee";
        "koala"; "lagoon"; "mango"; "nirvana"; "octopus";
        "penguin"; "quasar"; "rainbow"; "sunset"; "tundra";
        "umbra"; "vortex"; "waterfall"; "xylophone"; "yellow";
        "zebra"; "alpine"; "blossom"; "coral"; "dolphin";
        "evergreen"; "firefly"; "glacier"; "honeydew"; "island";
        "jungle"; "kiwi"; "lighthouse"; "mountain"; "nebula";
        "oasis"; "peacock"; "quartz"; "river"; "starlight";
        "tropical"; "unicorn"; "volcano"; "whirlpool"; "xenon" ]%string).

Definition fetchRandomWord `{Engine} : Z -> M Json :=
  fetchRandomWord localWords.

Definition generatePassword `{CaseMapping} `{Engine} (length : Z)
    (options : Options.t) (wordCase : WordCase) : M jsstring :=
  let charSet := charSetOf options in
  if negb (truthy charSet) && negb (Options.word options) then ret []
  else if Options.word options && negb (truthy charSet) then
    word <- fetchRandomWord length ;;
    cased <- applyWordCaseTo word wordCase ;;
    ret (slice cased 0 length)
  else if Options.word options then
    word <- fetchRandomWord (Z.min length 8) ;;
    caseAdjustedWord <- applyWordCaseTo word wordCase ;;
    let remainingLength := length - len caseAdjustedWord in
    if remainingLength <=? 0 then ret (slice caseAdjustedWord 0 length)
    else spliceWord caseAdjustedWord remainingLength charSet
  else generateRandomChars length charSet.

End Older.

(** A host for running the model: the ASCII letters move, every other unit
    stays. It agrees with the engine on every ASCII string. *)
#[export] Instance asciiCase : CaseMapping := {|
  toUpperCase := map asciiUpper;
  toLowerCase := map asciiLower;
  toUpperCase_ascii := fun s _ => eq_refl;
  toLowerCase_ascii := fun s _ => eq_refl
|}.

(** An engine for running the model: it takes the floor of the exact
    product, which is the double result whenever the product is a double (as
    it is for the draws of the example tapes below), and its coercions give
    up. *)
#[export, refine] Instance exactEngine : Engine := {|
  floorTimes := exactFloorTimes;
  propertyKey := fun _ _ => js "NaN";
  looseLe := fun _ _ => false;
  floorTimes_range := _
|}.
Proof.
  intros d n Hn. unfold exactFloorTimes, den.
  split.
  - apply Z.div_pos; lia.
  - apply Z.div_lt_upper_bound; nia.
Defined.

(** ** Vocabulary of the statements *)

(** What the [try] block of a pass leaves behind: the cursor and the attempt
    log are moved by [attempt] alone, the parsers only read the tape. *)
Definition sameCursor (st st' : State) : Prop :=
  apiIndex st' = apiIndex st /\ attempts st' = attempts st /\
  (draws st <= draws st')%nat.

(** A value returned from inside the loop passed the test of the loop. *)
Definition inBound `{Engine} (maxLength : Z) (r : Value) : Prop :=
  forall v, r = Some v ->
    truthyValue v = true /\ lengthLe (lengthOf v) maxLength = true.

(** The round-robin order: [k] passes from cursor [c], asking for words of
    length [maxLength]. *)
Definition passes `{Engine} (c : nat) (maxLength : Z) (k : nat)
  : list Attempt :=
  map (fun j => {| provider := ((c + j) mod List.length WORD_APIS)%nat;
                   bound := maxLength |})
      (seq 0 k).

(** Every request fails at once. *)
Definition allFail (env : Env) : Prop :=
  forall n u, exists e, network env n u = Rejects e.

(** Consecutive calls of the word source, one per requested length. *)
Fixpoint fetchAll `{Engine} (localWords : list jsstring) (maxLengths : list Z)
  : M (list Json) :=
  match maxLengths with
  | [] => ret []
  | m :: rest =>
      w <- fetchRandomWord localWords m ;;
      ws <- fetchAll localWords rest ;;
      ret (w :: ws)
  end.

(** The state after one more call of [Math.random()]. *)
Definition afterDraw (st : State) : State :=
  {| apiIndex := apiIndex st; draws := S (draws st); attempts := attempts st |}.

(** A computation that touches nothing but the tape, reading [n] draws. *)
Definition readsTape (st st' : State) (n : nat) : Prop :=
  apiIndex st' = apiIndex st /\ attempts st' = attempts st /\
  draws st' = (draws st + n)%nat.

(** Letters of a synthetic word: consonant at even offsets, vowel at odd. *)
Definition alternates (w : jsstring) : Prop :=
  forall i c, nth_error w i = Some c ->
    if Nat.even i then In c consonants else In c vowels.

(** A host that moreover knows the sharp s (unit 223), whose uppercase
    form is the two units SS: converting case can lengthen a word. *)
Definition upperSharpS (c : Z) : jsstring :=
  if c =? 223 then [83; 83] else [asciiUpper c].

(** Worlds to run the model in. The draws of the tape are 3/4, 1/4, 5/8 and
    1/8 in turn: doubles whose product with any length of the program is
    exact. In [offline] every request times out. In [flaky] the first pass
    times out, the second gets a non-success status, the third a word of
    eleven letters and the fourth two bare words, of which the parser reads
    the first. In [misshapen] every request is answered with an array whose
    only item is itself an array. *)
Definition steadyTape (n : nat) : Draw :=
  match (n mod 4)%nat with
  | 0%nat => {| num := 3; slack := 0 |}
  | 1%nat => {| num := 1; slack := 2 |}
  | 2%nat => {| num := 5; slack := 2 |}
  | _ => {| num := 1; slack := 6 |}
  end.

Definition offline : Env :=
  {| random := steadyTape; network := fun _ _ => Rejects AbortError |}.

Definition flaky : Env :=
  {| random := steadyTape;
     network := fun n _ =>
       match n with
       | 1%nat => Rejects AbortError
       | 2%nat => Responds false (Some JsonNull)
       | 3%nat => Responds true
                    (Some (JsonArray
                       [JsonObject [(js "word", JsonString (js "marshmallow"))]]))
       | _ => Responds true
                (Some (JsonArray [JsonString (js "fig"); JsonString (js "plum")]))
       end |}.

Definition misshapen : Env :=
  {| random := steadyTape;
     network := fun _ _ =>
       Responds true (Some (JsonArray [JsonArray [JsonString (js "ab")]])) |}.

(** The state one full round of passes after the initial one. *)
Definition afterRound `{Engine} (maxLength : Z) : State :=
  {| apiIndex := 4; draws := 0; attempts := passes 0 maxLength 4 |}.

(** Some character class is enabled. *)
Definition anyClass (o : Options.t) : bool :=
  Options.lower o || Options.upper o || Options.numbers o || Options.symbols o.

(** How a password [pw] of requested length [length] carries the
    case-adjusted word [cw]: never longer than requested; the whole word in
    one piece when the word is shorter than requested; the word cut to the
    requested length otherwise. *)
Definition embeds (cw pw : jsstring) (length : Z) : Prop :=
  len pw <= length /\
  (len cw < length -> exists pre post, pw = pre ++ cw ++ post) /\
  (length <= len cw -> pw = slice cw 0 length /\ len pw = length).

(** The length the older composer asks the word source for. *)
Definition olderBound (options : Options.t) (length : Z) : Z :=
  if anyClass options then Z.min length 8 else length.

(** Configurations used in the examples. *)
Definition allClasses : Options.t :=
  {| Options.lower := true; Options.upper := true; Options.numbers := true;
     Options.symbols := true; Options.word := false |}.

Definition wordOnly : Options.t :=
  {| Options.lower := false; Options.upper := false; Options.numbers := false;
     Options.symbols := false; Options.word := true |}.

Definition lettersAndWord : Options.t :=
  {| Options.lower := true; Options.upper := true; Options.numbers := false;
     Options.symbols := false; Options.word := true |}.

Definition nothing : Options.t :=
  {| Options.lower := false; Options.upper := false; Options.numbers := false;
     Options.symbols := false; Options.word := false |}.

(** A string of ASCII units. *)
Definition isAscii (s : jsstring) : bool := forallb isAsciiUnit s.

(** ** The page: [handleGenerate] and [toggleOption] of [passall.tsx] *)

(** [Array.from({length: n}, callback)]: the callback runs [n] times, in
    index order, and its results are collected. *)
Fixpoint arrayFrom {A : Type} (n : nat) (callback : M A) : M (list A) :=
  match n with
  | O => ret []
  | S n' =>
      x <- callback ;;
      xs <- arrayFrom n' callback ;;
      ret (x :: xs)
  end.

(** [pieces.join] with the empty string as separator *)
Definition joinEmpty (pieces : list jsstring) : jsstring := List.concat pieces.

Module App.

(** The state of the component that the handlers read. *)
Record t : Type := {
  length : Z;
  options : Options.t;
  wordCase : WordCase;
  caesar : bool;
  caesarInput : jsstring;
  caesarShift : Z
}.

(** What [handleGenerate] stores: the password and, in cipher mode, the
    plain and enciphered phrase shown under it. *)
Record Generated : Type := {
  password : jsstring;
  caesarVisual : option (jsstring * jsstring)
}.

(** [keyof typeof options] *)
Inductive Key : Type := KLower | KUpper | KNumbers | KSymbols | KWord.

(** [prev[key]] *)
Definition get (prev : Options.t) (key : Key) : bool :=
  match key with
  | KLower => Options.lower prev
  | KUpper => Options.upper prev
  | KNumbers => Options.numbers prev
  | KSymbols => Options.symbols prev
  | KWord => Options.word prev
  end.

(** The updater of [toggleOption]: a copy of [prev] in which the entry of
    [key] is replaced by its negation. *)
Definition toggleOption (key : Key) (prev : Options.t) : Options.t :=
  let v := negb (get prev key) in
  {| Options.lower := match key with KLower => v | _ => Options.lower prev end;
     Options.upper := match key with KUpper => v | _ => Options.upper prev end;
     Options.numbers :=
       match key with KNumbers => v | _ => Options.numbers prev end;
     Options.symbols :=
       match key with KSymbols => v | _ => Options.symbols prev end;
     Options.word := match key with KWord => v | _ => Options.word prev end |}.

(** [handleGenerate]: the value passed to [setPassword] and the value left
    in [caesarVisual]. *)
Definition handleGenerate `{CaseMapping} `{Engine} (app : t) : M Generated :=
  if caesar app then
    let base := caesarCipher (caesarInput app) (caesarShift app) in
    let visual := Some (caesarInput app, base) in
    let charSet := charSetOf (options app) in
    if truthy charSet && (len base <? length app) then
      pieces <- arrayFrom (Z.to_nat (length app - len base))
                  (i <- randomIndex (len charSet) ;; ret (charAt charSet i)) ;;
      let extra := joinEmpty pieces in
      insertPos <- randomIndex (len extra + 1) ;;
      ret {| password := slice extra 0 insertPos ++ base
                           ++ sliceFrom extra insertPos;
             caesarVisual := visual |}
    else
      ret {| password := slice base 0 (length app); caesarVisual := visual |}
  else
    pwd <- Passall.generatePassword (length app) (options app) (wordCase app) ;;
    ret {| password := pwd; caesarVisual := None |}.

End App.

(** ** More vocabulary *)

(** A string without uppercase, or without lowercase, ASCII letters. *)
Definition noUpper (s : jsstring) : bool := forallb (fun c => negb (isUpperUnit c)) s.
Definition noLower (s : jsstring) : bool := forallb (fun c => negb (isLowerUnit c)) s.

(** A string of lowercase ASCII letters. *)
Definition allLower (s : jsstring) : bool := forallb isLowerUnit s.

(** The round-robin sequence of provider indices, [n] passes from 0. *)
Definition roundRobin `{Engine} (n : nat) : list nat :=
  map (fun j => (j mod List.length WORD_APIS)%nat) (seq 0 n).

(** A world where the first provider answers with the word it was asked
    for, and a page state in cipher mode. *)
Definition online : Env :=
  {| random := steadyTape;
     network := fun _ _ =>
       Responds true (Some (JsonArray [JsonString (js "plum")])) |}.

(** The first entry of the provider table. *)
Definition randomWordApi `{Engine} : WordApi :=
  nth 0 WORD_APIS
    {| name := "none"; url := fun _ => Throw TypeError;
       parser := fun _ => throw TypeError |}.

Definition cipherPage : App.t :=
  {| App.length := 16; App.options := allClasses; App.wordCase := CaseLower;
     App.caesar := true; App.caesarInput := js "Attack At Dawn";
     App.caesarShift := 3 |}.

(** The alphabets by name, as the specification counts them. *)
Definition lowercaseAlphabet : jsstring := js "abcdefghijklmnopqrstuvwxyz".
Definition uppercaseAlphabet : jsstring := js "ABCDEFGHIJKLMNOPQRSTUVWXYZ".
Definition digitAlphabet : jsstring := js "0123456789".
Definition symbolAlphabet : jsstring :=
  [33; 64; 35; 36; 37; 94; 38; 42; 40; 41; 95; 43; 123; 125; 58; 34; 60; 62;
   63; 124; 91; 93; 59; 39; 44; 46; 47; 96; 126; 92].

(** A unit of a class that the configuration enables. *)
Definition inEnabledClass (options : Options.t) (c : Z) : Prop :=
  (Options.lower options = true /\ In c lowercaseAlphabet) \/
  (Options.upper options = true /\ In c uppercaseAlphabet) \/
  (Options.numbers options = true /\ In c digitAlphabet) \/
  (Options.symbols options = true /\ In c symbolAlphabet).

(** What rounding the product to the nearest double leaves of the exact
    product x = d * n: the floor k of the rounded product has
    k <= x (1 + 2^-53) and x (1 - 2^-53) < k + 1. *)
Definition nearestDouble `{Engine} : Prop :=
  forall d n k, 0 < n <= 2 ^ 53 -> floorTimes d n = k ->
    k * den d * 2 ^ 53 <= Z.of_nat (num d) * n * (2 ^ 53 + 1) /\
    Z.of_nat (num d) * n * (2 ^ 53 - 1) < (k + 1) * den d * 2 ^ 53.

(** A shift on which the sums of the Caesar transform are exact doubles. *)
Definition exactShift (shift : Z) : Prop := Z.abs shift <= 2 ^ 52.

(** * Properties *)

(** ** The Caesar transform *)

Section Caesar.

Lemma letter_cases c :
  isLetterUnit c = true ->
  (isLowerUnit c = true /\ 97 <= c <= 122) \/
  (isLowerUnit c = false /\ 65 <= c <= 90).
Proof.
  unfold isLetterUnit, isLowerUnit, isUpperUnit. intros H.
  destruct (97 <=? c) eqn:E1, (c <=? 122) eqn:E2,
           (65 <=? c) eqn:E3, (c <=? 90) eqn:E4;
    simpl in *; try discriminate; lia.
Qed.

Lemma shiftUnit_lower shift c :
  0 <= shift -> 97 <= c <= 122 ->
  shiftUnit shift c = 97 + (c - 97 + shift) mod 26.
Proof.
  intros Hs Hc. unfold shiftUnit, fromCharCode, isLowerUnit.
  replace (97 <=? c) with true by (symmetry; apply Z.leb_le; lia).
  replace (c <=? 122) with true by (symmetry; apply Z.leb_le; lia).
  cbn [andb]. rewrite Z.rem_mod_nonneg by lia.
  replace (c - 97 + shift + 26) with (c - 97 + shift + 1 * 26) by lia.
  rewrite Z.mod_add by lia.
  pose proof (Z.mod_pos_bound (c - 97 + shift) 26 ltac:(lia)).
  rewrite (Z.mod_small (_ + 97)) by lia. lia.
Qed.

Lemma shiftUnit_upper shift c :
  0 <= shift -> 65 <= c <= 90 ->
  shiftUnit shift c = 65 + (c - 65 + shift) mod 26.
Proof.
  intros Hs Hc. unfold shiftUnit, fromCharCode, isLowerUnit.
  replace (97 <=? c) with false by (symmetry; apply Z.leb_gt; lia).
  cbn [andb]. rewrite Z.rem_mod_nonneg by lia.
  replace (c - 65 + shift + 26) with (c - 65 + shift + 1 * 26) by lia.
  rewrite Z.mod_add by lia.
  pose proof (Z.mod_pos_bound (c - 65 + shift) 26 ltac:(lia)).
  rewrite (Z.mod_small (_ + 65)) by lia. lia.
Qed.

Lemma caesar_unit_refines shift c :
  0 <= shift ->
  (if isLetterUnit c then shiftUnit shift c else c) = caesarSpecUnit shift c.
Proof.
  intros Hs. unfold caesarSpecUnit.
  destruct (isLetterUnit c) eqn:L.
  - destruct (letter_cases c L) as [[Hl Hc] | [Hl Hc]]; rewrite Hl.
    + now apply shiftUnit_lower.
    + assert (isUpperUnit c = true) as ->
        by (unfold isUpperUnit; apply andb_true_iff; split; apply Z.leb_le; lia).
      now apply shiftUnit_upper.
  - unfold isLetterUnit in L. apply orb_false_iff in L as [-> ->]. reflexivity.
Qed.

Lemma caesarSpecUnit_inverse shift c :
  1 <= shift <= 25 ->
  caesarSpecUnit (26 - shift) (caesarSpecUnit shift c) = c.
Proof.
  intros Hs. unfold caesarSpecUnit at 2.
  destruct (isLowerUnit c) eqn:Hl; [| destruct (isUpperUnit c) eqn:Hu].
  - unfold isLowerUnit in Hl. apply andb_true_iff in Hl as [H1 H2].
    apply Z.leb_le in H1, H2.
    pose proof (Z.mod_pos_bound (c - 97 + shift) 26 ltac:(lia)) as Hb.
    unfold caesarSpecUnit, isLowerUnit.
    replace (97 <=? _) with true by (symmetry; apply Z.leb_le; lia).
    replace (_ <=? 122) with true by (symmetry; apply Z.leb_le; lia).
    cbn [andb].
    replace (97 + (c - 97 + shift) mod 26 - 97 + (26 - shift))
      with ((c - 97 + shift) mod 26 + (26 - shift)) by lia.
    rewrite Z.add_mod_idemp_l by lia.
    replace (c - 97 + shift + (26 - shift)) with (c - 97 + 1 * 26) by lia.
    rewrite Z.mod_add by lia. rewrite Z.mod_small by lia. lia.
  - unfold isUpperUnit in Hu. apply andb_true_iff in Hu as [H1 H2].
    apply Z.leb_le in H1, H2.
    pose proof (Z.mod_pos_bound (c - 65 + shift) 26 ltac:(lia)) as Hb.
    unfold caesarSpecUnit, isLowerUnit, isUpperUnit.
    replace (97 <=? _) with false by (symmetry; apply Z.leb_gt; lia).
    replace (65 <=? _) with true by (symmetry; apply Z.leb_le; lia).
    replace (_ <=? 90) with true by (symmetry; apply Z.leb_le; lia).
    cbn [andb].
    replace (65 + (c - 65 + shift) mod 26 - 65 + (26 - shift))
      with ((c - 65 + shift) mod 26 + (26 - shift)) by lia.
    rewrite Z.add_mod_idemp_l by lia.
    replace (c - 65 + shift + (26 - shift)) with (c - 65 + 1 * 26) by lia.
    rewrite Z.mod_add by lia. rewrite Z.mod_small by lia. lia.
  - unfold caesarSpecUnit. rewrite Hl, Hu. reflexivity.
Qed.

Lemma caesarSpecUnit_case shift c :
  isLowerUnit (caesarSpecUnit shift c) = isLowerUnit c /\
  isUpperUnit (caesarSpecUnit shift c) = isUpperUnit c.
Proof.
  unfold caesarSpecUnit.
  pose proof (Z.mod_pos_bound (c - 97 + shift) 26 ltac:(lia)).
  pose proof (Z.mod_pos_bound (c - 65 + shift) 26 ltac:(lia)).
  destruct (isLowerUnit c) eqn:Hl; [| destruct (isUpperUnit c) eqn:Hu];
    unfold isLowerUnit, isUpperUnit in *;
    repeat match goal with
           | H : context [?a <=? ?b] |- _ => destruct (Z.leb_spec a b)
           | |- context [?a <=? ?b] => destruct (Z.leb_spec a b)
           end;
    cbn [andb] in *; try discriminate; split; try reflexivity; lia.
Qed.

Lemma caesarCipher_refines text shift :
  0 <= shift -> caesarCipher text shift = caesarSpec text shift.
Proof.
  intros Hs. unfold caesarCipher, caesarSpec.
  apply map_ext. intros c. now apply caesar_unit_refines.
Qed.


(** C7. For every text and every shift in [1,25], enciphering with [shift]
    and then with [26 - shift] gives the text back, and every unit of the
    text that is not an ASCII letter is left where it is and as it is. *)
Theorem caesarCipher_round_trip (text : jsstring) (shift : Z) :
  1 <= shift <= 25 ->
  caesarCipher (caesarCipher text shift) (26 - shift) = text /\
  (forall i c, nth_error text i = Some c -> isLetterUnit c = false ->
               nth_error (caesarCipher text shift) i = Some c).
Proof.
  intros Hs. split.
  - rewrite (caesarCipher_refines text shift) by lia.
    rewrite caesarCipher_refines by lia.
    unfold caesarSpec. rewrite map_map.
    rewrite <- (map_id text) at 2. apply map_ext.
    intros c. now apply caesarSpecUnit_inverse.
  - intros i c Hi Hc. unfold caesarCipher.
    rewrite nth_error_map, Hi. simpl. now rewrite Hc.
Qed.

Lemma caesarCipher_round_trip_witness :
  caesarCipher (caesarCipher (js "Veni, vidi, vici!") 7) (26 - 7)
    = js "Veni, vidi, vici!" /\
  (forall i c, nth_error (js "Veni, vidi, vici!") i = Some c ->
               isLetterUnit c = false ->
               nth_error (caesarCipher (js "Veni, vidi, vici!") 7) i = Some c).
Proof. apply (caesarCipher_round_trip (js "Veni, vidi, vici!") 7). lia. Defined.

(** C8. For every text and every shift in [1,25], [caesarCipher] is the
    per-character mapping of the specification: a lowercase letter moves
    forward by [shift] inside a..z, an uppercase letter inside A..Z, both
    wrapping modulo 26, and any other unit is unchanged; the mapping keeps
    lowercase letters lowercase, uppercase letters uppercase and non-letters
    non-letters; and [caesarCipher("Attack At Dawn", 3)] is
    ["Dwwdfn Dw Gdzq"]. *)
Theorem caesarCipher_spec :
  (forall text shift, 1 <= shift <= 25 ->
     caesarCipher text shift = caesarSpec text shift) /\
  (forall shift c,
     isLowerUnit (caesarSpecUnit shift c) = isLowerUnit c /\
     isUpperUnit (caesarSpecUnit shift c) = isUpperUnit c) /\
  caesarCipher (js "Attack At Dawn") 3 = js "Dwwdfn Dw Gdzq".
Proof.
  split; [| split].
  - intros text shift Hs. apply caesarCipher_refines. lia.
  - apply caesarSpecUnit_case.
  - reflexivity.
Qed.

Lemma caesarCipher_spec_witness :
  caesarCipher (js "Zebra-zone, 42 Yaks") 25
    = caesarSpec (js "Zebra-zone, 42 Yaks") 25.
Proof. apply (proj1 caesarCipher_spec). lia. Defined.

End Caesar.

(** ** Basic facts: draws, strings, slices *)

Section Basics.

Context `{Engine}.

Lemma den_pos d : 0 < den d.
Proof. unfold den. lia. Qed.

Lemma num_lt_den d : Z.of_nat (num d) < den d.
Proof. unfold den. lia. Qed.

Lemma floorTimes_nonneg d n : 0 < n -> 0 <= floorTimes d n.
Proof. intros Hn. now apply floorTimes_range. Qed.

Lemma floorTimes_lt d n : 0 < n -> floorTimes d n < n.
Proof. intros Hn. now apply floorTimes_range. Qed.

Lemma len_app (a b : jsstring) : len (a ++ b) = len a + len b.
Proof. unfold len. rewrite length_app. lia. Qed.

Lemma len_nonneg (s : jsstring) : 0 <= len s.
Proof. unfold len. lia. Qed.

Lemma truthy_true s : truthy s = true <-> s <> [].
Proof. destruct s; simpl; split; congruence. Qed.

Lemma truthy_len s : truthy s = true <-> 0 < len s.
Proof. destruct s; unfold len; simpl; split; (congruence || lia). Qed.

Lemma charAt_in s i :
  0 <= i < len s -> exists c, charAt s i = [c] /\ In c s.
Proof.
  intros [H0 H1]. unfold charAt.
  replace (i <? 0) with false by (symmetry; apply Z.ltb_ge; lia).
  destruct (nth_error s (Z.to_nat i)) as [c |] eqn:E.
  - exists c. split; [reflexivity |]. eapply nth_error_In; eauto.
  - apply nth_error_None in E. unfold len in H1. lia.
Qed.

(** [s.slice(0, n)] keeps the first [n] units when [n] is not negative. *)
Lemma slice_prefix s n : 0 <= n -> slice s 0 n = firstn (Z.to_nat n) s.
Proof.
  intros Hn. unfold slice, clampIndex. pose proof (len_nonneg s) as Hl.
  replace (0 <? 0) with false by reflexivity.
  replace (n <? 0) with false by (symmetry; apply Z.ltb_ge; lia).
  rewrite (Z.min_l 0) by lia. simpl skipn. rewrite Z.sub_0_r.
  destruct (Z.min_spec n (len s)) as [[Hlt ->] | [Hge ->]]; [reflexivity |].
  unfold len in *. rewrite Nat2Z.id.
  rewrite firstn_all. symmetry. apply firstn_all2. lia.
Qed.

Lemma slice_prefix_len s n : 0 <= n -> len (slice s 0 n) = Z.min n (len s).
Proof.
  intros Hn. rewrite slice_prefix by lia. unfold len.
  rewrite length_firstn. lia.
Qed.

Lemma slice_whole s n : len s <= n -> slice s 0 n = s.
Proof.
  intros Hn. pose proof (len_nonneg s). rewrite slice_prefix by lia.
  apply firstn_all2. unfold len in *. lia.
Qed.

(** Cutting a string at an offset and gluing the halves gives it back. *)
Lemma slice_split s p :
  0 <= p <= len s -> slice s 0 p ++ sliceFrom s p = s.
Proof.
  intros Hp. rewrite slice_prefix by lia.
  unfold sliceFrom, slice, clampIndex. pose proof (len_nonneg s) as Hl.
  replace (p <? 0) with false by (symmetry; apply Z.ltb_ge; lia).
  replace (len s <? 0) with false by (symmetry; apply Z.ltb_ge; lia).
  rewrite (Z.min_l p) by lia. rewrite Z.min_id.
  rewrite (firstn_all2 (n := Z.to_nat (len s - p))).
  - apply firstn_skipn.
  - rewrite length_skipn. unfold len in *. lia.
Qed.

End Basics.

(** ** The word source *)

Section WordSource.

Context `{Engine}.

Variable localWords : list jsstring.

Lemma accepted_inBound word maxLength : inBound maxLength (accepted word maxLength).
Proof.
  intros v. unfold accepted. destruct word as [v0 |]; [| discriminate].
  destruct (truthyValue v0 && lengthLe (lengthOf v0) maxLength) eqn:T;
    [| discriminate].
  intros [= <-]. now apply andb_true_iff in T.
Qed.

Lemma none_inBound maxLength : inBound maxLength None.
Proof. intros v; discriminate. Qed.

(** A string that passed the test is not empty and within the bound. *)
Lemma inBound_string maxLength w :
  inBound maxLength (Some (JsonString w)) -> w <> [] /\ len w <= maxLength.
Proof.
  intros Hb. destruct (Hb _ eq_refl) as [Ht Hl]. cbn in Ht, Hl.
  split; [now apply truthy_true | now apply Z.leb_le].
Qed.

Ltac split_match :=
  match goal with
  | |- context [match ?x with _ => _ end] =>
      lazymatch x with
      | context [match _ with _ => _ end] => fail
      | _ => destruct x
      end
  end.

Ltac close_pass :=
  do 2 eexists; split; [reflexivity |]; split;
  [ unfold sameCursor; simpl; repeat split; lia
  | first [ apply none_inBound | apply accepted_inBound ] ].

Lemma tryProvider_spec api maxLength env st :
  In api WORD_APIS ->
  exists r st', tryProvider api maxLength env st = (Normal r, st') /\
                sameCursor st st' /\ inBound maxLength r.
Proof.
  intros Hin. simpl in Hin.
  destruct Hin as [<- | [<- | [<- | [<- | []]]]];
    cbv [tryProvider tryCatch bind lift ret throw fetchWithTimeout responseJson
         url parser mathRandom element0 randomElement repeatQuestion
         fst snd negb];
    repeat (split_match; cbv beta iota); close_pass.
Qed.

Lemma provider_in_table i :
  exists api, nth_error WORD_APIS (i mod List.length WORD_APIS) = Some api /\
              In api WORD_APIS.
Proof.
  assert (i mod List.length WORD_APIS < List.length WORD_APIS)%nat as Hlt
    by (apply Nat.mod_upper_bound; discriminate).
  destruct (nth_error WORD_APIS (i mod List.length WORD_APIS)) as [api |] eqn:E.
  - exists api. split; [reflexivity |]. eapply nth_error_In; eauto.
  - apply nth_error_None in E. lia.
Qed.

(** One pass always completes; it moves the cursor by one and uses the
    provider the cursor pointed at. *)
Lemma attempt_spec maxLength env st :
  exists r st',
    attempt maxLength env st = (Normal r, st') /\
    apiIndex st' = S (apiIndex st) /\
    attempts st' =
      attempts st ++
        [{| provider := (apiIndex st mod List.length WORD_APIS)%nat;
            bound := maxLength |}] /\
    (draws st <= draws st')%nat /\
    inBound maxLength r.
Proof.
  destruct (provider_in_table (apiIndex st)) as (api & Hnth & Hin).
  unfold attempt, bind, getApiIndex, incrApiIndex, logAttempt.
  rewrite Hnth.
  match goal with
  | |- context [tryProvider api maxLength env ?s] =>
      destruct (tryProvider_spec api maxLength env s Hin)
        as (r & st' & Hrun & (Hc & Ha & Hd) & Hb)
  end.
  exists r, st'. rewrite Hrun. cbn [apiIndex draws attempts] in Hc, Ha, Hd.
  split; [reflexivity |]. split; [exact Hc |]. split; [exact Ha |].
  split; [exact Hd | exact Hb].
Qed.


Lemma passes_zero c maxLength : passes c maxLength 0 = [].
  Proof. reflexivity. Qed.

Lemma passes_succ c maxLength k :
  passes c maxLength (S k) =
    {| provider := (c mod List.length WORD_APIS)%nat; bound := maxLength |}
      :: passes (S c) maxLength k.
Proof.
  unfold passes. rewrite <- cons_seq, <- seq_shift. cbn [map].
  rewrite Nat.add_0_r. f_equal. rewrite map_map. apply map_ext.
  intros j. now rewrite Nat.add_succ_r.
Qed.

Lemma passes_length c maxLength k : List.length (passes c maxLength k) = k.
  Proof. unfold passes. now rewrite length_map, length_seq. Qed.

Lemma passes_bound c maxLength k :
  Forall (fun a => bound a = maxLength) (passes c maxLength k).
Proof.
  unfold passes. apply Forall_forall. intros a Ha.
  apply in_map_iff in Ha as (j & <- & _). reflexivity.
Qed.

(** The loop completes after [k] passes, [k] at most [n], in round-robin
    order from the cursor; it goes the whole round when nothing is
    accepted, and an accepted word is within the bound. *)
Lemma sweep_spec n maxLength env st :
  exists r st' k,
    sweep n maxLength env st = (Normal r, st') /\
    (k <= n)%nat /\ (r = None -> k = n) /\ (n <> 0%nat -> k <> 0%nat) /\
    apiIndex st' = (apiIndex st + k)%nat /\
    attempts st' = attempts st ++ passes (apiIndex st) maxLength k /\
    (draws st <= draws st')%nat /\
    inBound maxLength r.
Proof.
  revert st. induction n as [| n IH]; intros st.
  - exists None, st, 0%nat. cbn [sweep ret]. rewrite passes_zero, app_nil_r.
    split; [reflexivity |]. split; [lia |]. split; [reflexivity |].
    split; [auto |]. split; [lia |]. split; [reflexivity |].
    split; [lia | apply none_inBound].
  - destruct (attempt_spec maxLength env st)
      as (r1 & st1 & Hrun & Hc & Ha & Hd & Hb).
    cbn [sweep]. unfold bind at 1. rewrite Hrun.
    destruct r1 as [w |].
    + exists (Some w), st1, 1%nat. rewrite passes_succ, passes_zero.
      cbn [ret]. split; [reflexivity |]. split; [lia |].
      split; [discriminate |]. split; [discriminate |]. split; [lia |].
      split; [rewrite Ha; reflexivity |]. split; [lia | exact Hb].
    + destruct (IH st1) as (r & st' & k & Hrun' & Hk & Hn & _ & Hc' & Ha' & Hd' & Hb').
      exists r, st', (S k). rewrite passes_succ.
      split; [exact Hrun' |]. split; [lia |]. split; [intros E; rewrite (Hn E); reflexivity |].
      split; [discriminate |]. split; [lia |].
      split; [rewrite Ha', Ha, Hc, <- app_assoc; reflexivity |].
      split; [lia | exact Hb'].
Qed.

Lemma rem2_even (j : nat) : (Z.rem (Z.of_nat j) 2 =? 0) = Nat.even j.
Proof.
  rewrite Z.rem_mod_nonneg by lia.
  change 2 with (Z.of_nat 2). rewrite <- Nat2Z.inj_mod.
  destruct (Nat.even j) eqn:E.
  - apply Nat.even_spec in E. destruct E as [m ->].
    rewrite Nat.mul_comm, Nat.Div0.mod_mul. reflexivity.
  - assert (Nat.odd j = true) as O by (rewrite <- Nat.negb_even, E; reflexivity).
    apply Nat.odd_spec in O. destruct O as [m ->].
    rewrite Nat.add_comm, Nat.mul_comm, Nat.Div0.mod_add. reflexivity.
Qed.

Lemma consonants_len : len consonants = 21.
  Proof. reflexivity. Qed.

Lemma vowels_len : len vowels = 5.
  Proof. reflexivity. Qed.

  (** The synthetic generator appends one letter per pass, a consonant when
    the running index is even and a vowel when it is odd. *)
Lemma fallbackLoop_spec n (i : nat) word env st :
  exists w st',
    fallbackLoop n (Z.of_nat i) word env st = (Normal (word ++ w), st') /\
    readsTape st st' n /\ List.length w = n /\
    (forall j c, nth_error w j = Some c ->
       if Nat.even (i + j) then In c consonants else In c vowels).
Proof.
  revert i word st. induction n as [| n IH]; intros i word st.
  - exists [], st. cbn [fallbackLoop ret]. rewrite app_nil_r.
    split; [reflexivity |]. split; [unfold readsTape; repeat split; lia |].
    split; [reflexivity |]. intros [| j] c; discriminate.
  - cbn [fallbackLoop]. unfold bind at 1, mathRandom.
    fold (afterDraw st). set (d := random env (draws st)).
    rewrite rem2_even.
    assert (exists c, (if Nat.even i
                       then charAt consonants (floorTimes d (len consonants))
                       else charAt vowels (floorTimes d (len vowels))) = [c] /\
                      (if Nat.even i then In c consonants else In c vowels))
      as (c & -> & Hc).
    { destruct (Nat.even i).
      - apply charAt_in. rewrite consonants_len. split;
          [apply floorTimes_nonneg | apply floorTimes_lt]; lia.
      - apply charAt_in. rewrite vowels_len. split;
          [apply floorTimes_nonneg | apply floorTimes_lt]; lia. }
    replace (Z.of_nat i + 1) with (Z.of_nat (S i)) by lia.
    destruct (IH (S i) (word ++ [c]) (afterDraw st))
      as (w & st' & Hrun & (Hc1 & Ha1 & Hd1) & Hlen & Halt).
    exists (c :: w), st'. rewrite Hrun, <- app_assoc.
    split; [reflexivity |].
    split; [unfold readsTape; cbn [afterDraw apiIndex draws attempts] in *;
            repeat split; lia || congruence |].
    split; [cbn; lia |].
    intros [| j] c' Hj.
    + cbn in Hj. injection Hj as <-. now rewrite Nat.add_0_r.
    + cbn in Hj. specialize (Halt j c' Hj).
      now rewrite Nat.add_succ_r.
Qed.

Lemma generateFallbackWord_spec length env st :
  exists w st',
    generateFallbackWord length env st = (Normal w, st') /\
    readsTape st st' (Z.to_nat length) /\
    len w = Z.max 0 length /\ alternates w.
Proof.
  destruct (fallbackLoop_spec (Z.to_nat length) 0 [] env st)
    as (w & st' & Hrun & Hst & Hlen & Halt).
  exists w, st'. unfold generateFallbackWord. cbn in Hrun.
  split; [exact Hrun |]. split; [exact Hst |].
  split; [unfold len; lia |]. exact Halt.
Qed.

Lemma validWords_in maxLength w :
  In w (validWords localWords maxLength) <->
  In w localWords /\ len w <= maxLength.
Proof.
  unfold validWords. rewrite filter_In. now rewrite Z.leb_le.
Qed.

(** The dictionary step, written out on the state. *)
Lemma pickLocal_unfold maxLength env st :
  pickLocal localWords maxLength env st =
    let valid := validWords localWords maxLength in
    let i := floorTimes (random env (draws st)) (Z.of_nat (List.length valid)) in
    match nth_error valid (Z.to_nat i) with
    | Some w =>
        if truthy w then (Normal w, afterDraw st)
        else generateFallbackWord maxLength env (afterDraw st)
    | None => generateFallbackWord maxLength env (afterDraw st)
    end.
Proof.
  unfold pickLocal, randomIndex, bind, mathRandom, ret. fold (afterDraw st).
  cbv zeta. destruct (nth_error _ _) as [w |]; [destruct (truthy w) |];
    reflexivity.
Qed.

Lemma pickLocal_spec maxLength env st :
  exists w st',
    pickLocal localWords maxLength env st = (Normal w, st') /\
    apiIndex st' = apiIndex st /\ attempts st' = attempts st /\
    (draws st <= draws st')%nat /\
    len w <= Z.max 0 maxLength.
Proof.
  rewrite pickLocal_unfold. cbv zeta.
  destruct (generateFallbackWord_spec maxLength env (afterDraw st))
    as (f & st' & Hrun & (Hc & Ha & Hd) & Hlen & _).
  cbn [afterDraw apiIndex draws attempts] in Hc, Ha, Hd.
  destruct (nth_error _ _) as [w |] eqn:E.
  - destruct (truthy w).
    + exists w, (afterDraw st). cbn [afterDraw apiIndex draws attempts].
      split; [reflexivity |]. split; [reflexivity |]. split; [reflexivity |].
      split; [lia |]. apply nth_error_In in E.
      apply validWords_in in E as [_ E]. lia.
    + exists f, st'. rewrite Hrun. repeat split; auto; lia.
  - exists f, st'. rewrite Hrun. repeat split; auto; lia.
Qed.

(** [fetchRandomWord] always resolves: between one and four passes in
    round-robin order, then either the value that passed the test of the
    loop or a string of the dictionary step, no longer than the bound. *)
Lemma fetchRandomWord_spec maxLength env st :
  exists v st' k,
    fetchRandomWord localWords maxLength env st = (Normal v, st') /\
    (1 <= k <= List.length WORD_APIS)%nat /\
    apiIndex st' = (apiIndex st + k)%nat /\
    attempts st' = attempts st ++ passes (apiIndex st) maxLength k /\
    (draws st <= draws st')%nat /\
    ((truthyValue v = true /\ lengthLe (lengthOf v) maxLength = true) \/
     (exists w, v = JsonString w /\ len w <= Z.max 0 maxLength)).
Proof.
  destruct (sweep_spec (List.length WORD_APIS) maxLength env st)
    as (r & st1 & k & Hrun & Hk & _ & Hk1 & Hc & Ha & Hd & Hb).
  assert (1 <= k)%nat as Hk2 by (specialize (Hk1 ltac:(discriminate)); lia).
  unfold fetchRandomWord, bind at 1. rewrite Hrun. destruct r as [v |].
  - exists v, st1, k. cbn [ret].
    split; [reflexivity |]. split; [lia |]. split; [exact Hc |].
    split; [exact Ha |]. split; [exact Hd |]. left. now apply Hb.
  - destruct (pickLocal_spec maxLength env st1)
      as (w & st' & Hrun' & Hc' & Ha' & Hd' & Hw).
    exists (JsonString w), st', k. unfold bind. rewrite Hrun'. cbn [ret].
    split; [reflexivity |]. split; [lia |]. split; [congruence |].
    split; [congruence |]. split; [lia |]. right. eauto.
Qed.

(** A string result is within the bound. *)
Lemma string_result_bound maxLength v w :
  (truthyValue v = true /\ lengthLe (lengthOf v) maxLength = true) \/
  (exists w', v = JsonString w' /\ len w' <= Z.max 0 maxLength) ->
  v = JsonString w -> len w <= Z.max 0 maxLength.
Proof.
  intros [[_ Hl] | (w' & -> & Hw)] E.
  - subst v. cbn in Hl. apply Z.leb_le in Hl. lia.
  - injection E as ->. exact Hw.
Qed.

(** When every request fails at once, a pass yields nothing. *)
Lemma tryProvider_allFail api maxLength env st :
  allFail env ->
  exists st', tryProvider api maxLength env st = (Normal None, st').
Proof.
  intros Hfail.
  unfold tryProvider, tryCatch, bind at 1, lift.
  destruct (url api maxLength) as [u | e]; [| eexists; reflexivity].
  unfold bind, fetchWithTimeout.
  destruct (Hfail (List.length (attempts st)) u) as [e ->].
  eexists; reflexivity.
Qed.

Lemma attempt_allFail maxLength env st :
  allFail env ->
  exists st', attempt maxLength env st = (Normal None, st').
Proof.
  intros Hfail.
  destruct (provider_in_table (apiIndex st)) as (api & Hnth & _).
  unfold attempt, bind, getApiIndex, incrApiIndex, logAttempt. rewrite Hnth.
  match goal with
  | |- context [tryProvider api maxLength env ?s] =>
      destruct (tryProvider_allFail api maxLength env s Hfail) as [st' ->]
  end.
  eexists; reflexivity.
Qed.

Lemma sweep_allFail n maxLength env st :
  allFail env ->
  exists st', sweep n maxLength env st = (Normal None, st').
Proof.
  intros Hfail. revert st. induction n as [| n IH]; intros st.
  - eexists; reflexivity.
  - cbn [sweep]. unfold bind at 1.
    destruct (attempt_allFail maxLength env st Hfail) as [st1 ->].
    apply IH.
Qed.

(** With every provider failing, a call makes the full round of passes. *)
Lemma fetchRandomWord_allFail maxLength env st :
  allFail env ->
  exists w st',
    fetchRandomWord localWords maxLength env st = (Normal w, st') /\
    apiIndex st' = (apiIndex st + List.length WORD_APIS)%nat /\
    attempts st' =
      attempts st ++ passes (apiIndex st) maxLength (List.length WORD_APIS).
Proof.
  intros Hfail.
  destruct (sweep_spec (List.length WORD_APIS) maxLength env st)
    as (r & st1 & k & Hrun & _ & Hn & _ & Hc & Ha & _ & _).
  destruct (sweep_allFail (List.length WORD_APIS) maxLength env st Hfail)
    as [st1' Hnone].
  rewrite Hnone in Hrun. injection Hrun as <- ->.
  specialize (Hn eq_refl). subst k.
  destruct (pickLocal_spec maxLength env st1)
    as (w & st' & Hrun' & Hc' & Ha' & _ & _).
  exists (JsonString w), st'. unfold fetchRandomWord, bind at 1.
  rewrite Hnone. unfold bind. rewrite Hrun'. cbn [ret].
  repeat split; congruence.
Qed.

(** Cursor and cumulative attempts after any number of all-failing calls
    from the initial state. *)
Lemma fetchAll_allFail env maxLengths st :
  allFail env ->
  exists ws st',
    fetchAll localWords maxLengths env st = (Normal ws, st') /\
    apiIndex st' =
      (apiIndex st + List.length WORD_APIS * List.length maxLengths)%nat /\
    List.length (attempts st') =
      (List.length (attempts st)
         + List.length WORD_APIS * List.length maxLengths)%nat.
Proof.
  intros Hfail. revert st.
  induction maxLengths as [| m rest IH]; intros st.
  - exists [], st. cbn [fetchAll ret List.length]. repeat split; lia.
  - destruct (fetchRandomWord_allFail m env st Hfail)
      as (w & st1 & Hrun & Hc & Ha).
    destruct (IH st1) as (ws & st' & Hrun' & Hc' & Ha').
    exists (w :: ws), st'. cbn [fetchAll]. unfold bind. rewrite Hrun, Hrun'.
    cbn [ret]. split; [reflexivity |].
    rewrite Hc', Ha', Hc, Ha, length_app, passes_length.
    cbn [List.length]. split; lia.
Qed.

End WordSource.

(** ** Statements about the word source *)

Section WordSourceStatements.

Context `{Engine}.

(** C5. The table has N = 4 providers. Within one call from cursor c the
    passes use providers (c + j) mod N for j = 0, 1, ..., the cursor moving
    by one per pass, for at least one and at most N passes. Over consecutive
    calls from the initial state the cursor equals the number of passes made
    so far, so call i begins at (cumulative prior attempts) mod N; when all
    providers fail every call makes N passes and K calls make N * K. *)
Theorem provider_rotation :
  List.length WORD_APIS = 4%nat /\
  (forall localWords maxLength env st,
     exists w st' k,
       fetchRandomWord localWords maxLength env st = (Normal w, st') /\
       (1 <= k <= 4)%nat /\
       apiIndex st' = (apiIndex st + k)%nat /\
       attempts st' = attempts st ++ passes (apiIndex st) maxLength k) /\
  (forall localWords env before m,
     allFail env ->
     exists ws st_i w st',
       fetchAll localWords before env initial = (Normal ws, st_i) /\
       List.length (attempts st_i) = (4 * List.length before)%nat /\
       fetchRandomWord localWords m env st_i = (Normal w, st') /\
       attempts st' =
         attempts st_i ++ passes (List.length (attempts st_i)) m 4).
Proof.
  split; [reflexivity |]. split.
  - intros localWords maxLength env st.
    destruct (fetchRandomWord_spec localWords maxLength env st)
      as (w & st' & k & Hrun & Hk & Hc & Ha & _ & _).
    exists w, st', k. auto.
  - intros localWords env before m Hfail.
    destruct (fetchAll_allFail localWords env before initial Hfail)
      as (ws & st_i & Hrun & Hc & Ha).
    destruct (fetchRandomWord_allFail localWords m env st_i Hfail)
      as (w & st' & Hrun' & _ & Ha').
    exists ws, st_i, w, st'. cbn [initial apiIndex attempts List.length] in Hc, Ha.
    split; [exact Hrun |]. split; [exact Ha |]. split; [exact Hrun' |].
    rewrite Ha'. f_equal. f_equal. lia.
Qed.

Lemma fetchRandomWord_after_sweep localWords maxLength env st st1 :
  sweep (List.length WORD_APIS) maxLength env st = (Normal None, st1) ->
  fetchRandomWord localWords maxLength env st =
    (w <- pickLocal localWords maxLength ;; ret (JsonString w)) env st1.
Proof. intros Hs. unfold fetchRandomWord, bind at 1. now rewrite Hs. Qed.

Lemma localWords_long_passall w : In w Passall.localWords -> 4 <= len w.
Proof.
  unfold Passall.localWords. rewrite filter_In. intros [_ Hw].
  now apply Z.leb_le.
Qed.

Lemma localWords_long_older w : In w Older.localWords -> 4 <= len w.
Proof.
  unfold Older.localWords. rewrite filter_In. intros [_ Hw].
  now apply Z.leb_le.
Qed.

(** A dictionary of non-empty words: the pick, when the filtered list is
    not empty, is the entry at the drawn index. *)
Lemma pickLocal_entry localWords maxLength env st :
  (forall w, In w localWords -> 0 < len w) ->
  validWords localWords maxLength <> [] ->
  let valid := validWords localWords maxLength in
  let i := floorTimes (random env (draws st)) (Z.of_nat (List.length valid)) in
  0 <= i < Z.of_nat (List.length valid) /\
  exists w, nth_error valid (Z.to_nat i) = Some w /\
            pickLocal localWords maxLength env st = (Normal w, afterDraw st).
Proof.
  intros Hpos Hne.
  assert (0 < Z.of_nat (List.length (validWords localWords maxLength))) as Hn
    by (destruct (validWords localWords maxLength);
        [congruence | cbn [List.length]; lia]).
  intros valid i. rewrite pickLocal_unfold. fold valid. fold i.
  cbv zeta. fold valid in Hn.
  pose proof (floorTimes_range (random env (draws st)) _ Hn) as Hi.
  fold i in Hi. split; [exact Hi |].
  destruct (nth_error valid (Z.to_nat i)) as [w |] eqn:E.
  - exists w. split; [reflexivity |]. fold i. rewrite E.
    assert (truthy w = true) as ->; [| reflexivity].
    apply truthy_len, Hpos. apply nth_error_In in E.
    now apply validWords_in in E.
  - apply nth_error_None in E. lia.
Qed.

Lemma pickLocal_synthetic localWords maxLength env st :
  validWords localWords maxLength = [] ->
  pickLocal localWords maxLength env st =
    generateFallbackWord maxLength env (afterDraw st).
Proof.
  intros Hnil. rewrite pickLocal_unfold, Hnil. cbv zeta.
  now destruct (Z.to_nat _).
Qed.

Lemma sameKey_eq a b : sameKey a b = true <-> a = b.
Proof.
  revert b. induction a as [| x a IH]; intros [| y b]; cbn [sameKey];
    try (split; intros; congruence || discriminate).
  rewrite andb_true_iff, Z.eqb_eq, IH. split; [intros [-> ->] | intros [= -> ->]]; auto.
Qed.

(** The entries of the dictionary of [passall.tsx] are pairwise distinct,
    and so are those of any filtered list. *)
Lemma localWords_distinct maxLength :
  NoDup (validWords Passall.localWords maxLength).
Proof.
  unfold validWords. apply NoDup_filter.
  assert (forall l : list jsstring,
            (fix distinct (l : list jsstring) : bool :=
               match l with
               | [] => true
               | w :: rest => negb (existsb (sameKey w) rest) && distinct rest
               end) l = true -> NoDup l) as Hcheck.
  { induction l as [| w rest IH]; intros Hd; constructor.
    - apply andb_true_iff in Hd as [Hw _]. intros Hin.
      apply negb_true_iff in Hw.
      assert (existsb (sameKey w) rest = true) as Hex
        by (apply existsb_exists; exists w; split; [exact Hin | now apply sameKey_eq]).
      congruence.
    - apply andb_true_iff in Hd as [_ Hd]. now apply IH. }
  apply Hcheck. vm_compute. reflexivity.
Qed.

Lemma nth_error_distinct (l : list jsstring) i j w :
  NoDup l -> nth_error l i = Some w -> nth_error l j = Some w -> i = j.
Proof.
  intros Hnd Hi Hj. eapply NoDup_nth_error; eauto.
  - apply nth_error_Some. congruence.
  - congruence.
Qed.


Lemma dictionary_from_four localWords :
  (forall w, In w localWords -> 4 <= len w) ->
  (exists w, In w localWords /\ len w = 4) ->
  forall maxLength env st st1,
    sweep (List.length WORD_APIS) maxLength env st = (Normal None, st1) ->
    (4 <= maxLength ->
       validWords localWords maxLength <> [] /\
       exists w, fetchRandomWord localWords maxLength env st
                   = (Normal (JsonString w), afterDraw st1) /\
                 In w localWords /\ len w <= maxLength) /\
    (maxLength <= 3 ->
       validWords localWords maxLength = [] /\
       fetchRandomWord localWords maxLength env st
         = (w <- generateFallbackWord maxLength ;; ret (JsonString w))
             env (afterDraw st1)).
Proof.
  intros Hlong (w4 & Hin4 & Hlen4) maxLength env st st1 Hsweep.
  rewrite (fetchRandomWord_after_sweep _ _ _ _ _ Hsweep). split.
  - intros Hm.
    assert (validWords localWords maxLength <> []) as Hne.
    { intros Hnil. assert (In w4 (validWords localWords maxLength)) as Hin
        by (apply validWords_in; split; [exact Hin4 | lia]).
      rewrite Hnil in Hin. exact Hin. }
    split; [exact Hne |].
    destruct (pickLocal_entry localWords maxLength env st1)
      as (_ & w & Hnth & Hrun);
      [intros w Hw; apply Hlong in Hw; lia | exact Hne |].
    exists w. split; [unfold bind; rewrite Hrun; reflexivity |].
    apply nth_error_In in Hnth. now apply validWords_in in Hnth.
  - intros Hm.
    assert (validWords localWords maxLength = []) as Hnil.
    { destruct (validWords localWords maxLength) as [| w rest] eqn:E;
        [reflexivity |].
      assert (In w (validWords localWords maxLength)) as Hin
        by (rewrite E; left; reflexivity).
      apply validWords_in in Hin as [Hin Hlen]. apply Hlong in Hin. lia. }
    split; [exact Hnil |]. unfold bind.
    now rewrite (pickLocal_synthetic _ _ _ _ Hnil).
Qed.

(** C10. In both files every dictionary entry has at least 4 letters and
    some entry has exactly 4. Hence, once the provider loop has ended without
    a word: for every maxLength >= 4 the filtered dictionary is not empty and
    the call returns one of its entries after the single draw of the pick,
    the synthetic generator not being run; and for maxLength in {1, 2, 3}
    (indeed for every maxLength <= 3) the filtered dictionary is empty and
    the call is the run of the synthetic generator. *)
Theorem dictionary_shortest_is_four (localWords : list jsstring) :
  In localWords [Passall.localWords; Older.localWords] ->
  (forall w, In w localWords -> 4 <= len w) /\
  (exists w, In w localWords /\ len w = 4) /\
  (forall maxLength env st st1,
     sweep (List.length WORD_APIS) maxLength env st = (Normal None, st1) ->
     (4 <= maxLength ->
        validWords localWords maxLength <> [] /\
        exists w, fetchRandomWord localWords maxLength env st
                    = (Normal (JsonString w), afterDraw st1) /\
                  In w localWords /\ len w <= maxLength) /\
     (maxLength <= 3 ->
        validWords localWords maxLength = [] /\
        fetchRandomWord localWords maxLength env st
          = (w <- generateFallbackWord maxLength ;; ret (JsonString w))
              env (afterDraw st1))).
Proof.
  intros Hin.
  assert ((forall w, In w localWords -> 4 <= len w) /\
          (exists w, In w localWords /\ len w = 4)) as [Hlong Hex].
  { destruct Hin as [<- | [<- | []]].
    - split; [apply localWords_long_passall |].
      exists (js "echo"). split; [vm_compute; tauto | reflexivity].
    - split; [apply localWords_long_older |].
      exists (js "echo"). split; [vm_compute; tauto | reflexivity]. }
  split; [exact Hlong |]. split; [exact Hex |].
  now apply dictionary_from_four.
Qed.

End WordSourceStatements.

Lemma provider_rotation_witness :
  exists ws st_i w st',
    fetchAll Passall.localWords [8; 3; 12] offline initial = (Normal ws, st_i) /\
    List.length (attempts st_i) = (4 * 3)%nat /\
    fetchRandomWord Passall.localWords 5 offline st_i = (Normal w, st') /\
    attempts st' = attempts st_i ++ passes (List.length (attempts st_i)) 5 4.
Proof.
  apply (proj2 (proj2 provider_rotation) Passall.localWords offline [8; 3; 12] 5).
  intros n u. exists AbortError. reflexivity.
Defined.


Lemma exact_nearestDouble : @nearestDouble exactEngine.
Proof.
  intros d n k [Hn _] <-. cbn [floorTimes exactEngine]. unfold exactFloorTimes.
  pose proof (den_pos d) as Hd.
  pose proof (Z.mul_div_le (Z.of_nat (num d) * n) (den d) Hd) as Hlo.
  pose proof (Z.mul_succ_div_gt (Z.of_nat (num d) * n) (den d) Hd) as Hhi.
  set (q := Z.of_nat (num d) * n / den d) in *.
  assert (0 <= Z.of_nat (num d) * n) by nia.
  split; nia.
Qed.


Lemma dictionary_shortest_is_four_witness :
  validWords Older.localWords 4 <> [] /\
  exists w, fetchRandomWord Older.localWords 4 offline initial
              = (Normal (JsonString w), afterDraw (afterRound 4)) /\
            In w Older.localWords /\ len w <= 4.
Proof.
  apply (proj2 (proj2 (dictionary_shortest_is_four Older.localWords
                         ltac:(right; left; reflexivity)))
           4 offline initial (afterRound 4));
    [reflexivity | lia].
Defined.
(** ** The composer *)

Section Composer.

Context `{CaseMapping} `{Engine}.

Lemma upper_letters : upper = js "ABCDEFGHIJKLMNOPQRSTUVWXYZ".
Proof. unfold upper. rewrite toUpperCase_ascii; reflexivity. Qed.

Lemma charSetOf_none options :
  anyClass options = false -> charSetOf options = [].
Proof.
  unfold anyClass, charSetOf. intros Hany.
  repeat (apply orb_false_iff in Hany as [Hany ?]).
  rewrite Hany. repeat match goal with E : _ = false |- _ => rewrite E; clear E end.
  reflexivity.
Qed.

Lemma charSetOf_some options :
  anyClass options = true -> charSetOf options <> [].
Proof.
  unfold anyClass, charSetOf. rewrite upper_letters. intros Hany Hnil.
  destruct (Options.lower options); [discriminate |].
  destruct (Options.upper options); [discriminate |].
  destruct (Options.numbers options); [discriminate |].
  destruct (Options.symbols options); discriminate.
Qed.

Lemma charSetOf_truthy options :
  truthy (charSetOf options) = anyClass options.
Proof.
  destruct (anyClass options) eqn:E.
  - apply truthy_true. now apply charSetOf_some.
  - now rewrite charSetOf_none.
Qed.

(** Filler: one unit of the set per pass. *)
Lemma randomCharsLoop_spec n charSet result env st :
  charSet <> [] ->
  exists w st',
    randomCharsLoop n charSet result env st = (Normal (result ++ w), st') /\
    readsTape st st' n /\ List.length w = n /\
    Forall (fun c => In c charSet) w.
Proof.
  intros Hne. revert result st. induction n as [| n IH]; intros result st.
  - exists [], st. cbn [randomCharsLoop ret]. rewrite app_nil_r.
    split; [reflexivity |]. split; [unfold readsTape; repeat split; lia |].
    split; [reflexivity | constructor].
  - cbn [randomCharsLoop]. unfold bind at 1, mathRandom. fold (afterDraw st).
    set (d := random env (draws st)).
    assert (0 < len charSet) as Hlen by (now apply truthy_len, truthy_true).
    destruct (charAt_in charSet (floorTimes d (len charSet))) as (c & -> & Hc).
    { apply floorTimes_range. lia. }
    destruct (IH (result ++ [c]) (afterDraw st))
      as (w & st' & Hrun & (Hc1 & Ha1 & Hd1) & Hlen' & Hall).
    exists (c :: w), st'. rewrite Hrun, <- app_assoc.
    split; [reflexivity |].
    split; [unfold readsTape; cbn [afterDraw apiIndex draws attempts] in *;
            repeat split; lia || congruence |].
    split; [cbn; lia | now constructor].
Qed.

Lemma generateRandomChars_spec length charSet env st :
  charSet <> [] ->
  exists w st',
    generateRandomChars length charSet env st = (Normal w, st') /\
    readsTape st st' (Z.to_nat length) /\
    len w = Z.max 0 length /\ Forall (fun c => In c charSet) w.
Proof.
  intros Hne.
  destruct (randomCharsLoop_spec (Z.to_nat length) charSet [] env st Hne)
    as (w & st' & Hrun & Hst & Hlen & Hall).
  exists w, st'. unfold generateRandomChars. cbn in Hrun.
  split; [exact Hrun |]. split; [exact Hst |].
  split; [unfold len; lia | exact Hall].
Qed.

(** Case adjustment always completes and touches only the tape. *)
Lemma randomizeCase_spec word env st :
  exists cw st',
    randomizeCase word env st = (Normal cw, st') /\
    readsTape st st' (List.length word) /\
    (isAscii word = true -> len cw = len word).
Proof.
  revert st. induction word as [| c rest IH]; intros st.
  - exists [], st. cbn [randomizeCase ret].
    split; [reflexivity |]. split; [unfold readsTape; repeat split; cbn; lia |].
    reflexivity.
  - cbn [randomizeCase]. unfold bind at 1, mathRandom. fold (afterDraw st).
    set (d := random env (draws st)).
    destruct (IH (afterDraw st)) as (cw & st' & Hrun & (Hc1 & Ha1 & Hd1) & Hlen).
    unfold bind. rewrite Hrun. cbn [ret]. eexists. exists st'.
    split; [reflexivity |].
    split; [unfold readsTape; cbn [afterDraw apiIndex draws attempts List.length] in *;
            repeat split; lia || congruence |].
    intros Hascii. unfold isAscii in *. cbn [forallb] in Hascii.
    apply andb_true_iff in Hascii as [Hc Hrest].
    rewrite len_app, (Hlen Hrest).
    assert (forallb isAsciiUnit [c] = true) as Hone by (cbn; now rewrite Hc).
    rewrite (toUpperCase_ascii [c] Hone), (toLowerCase_ascii [c] Hone).
    destruct (overHalf d); unfold len; cbn [map List.length]; lia.
Qed.

Lemma applyWordCase_spec word caseType env st :
  exists cw st',
    applyWordCase word caseType env st = (Normal cw, st') /\
    apiIndex st' = apiIndex st /\ attempts st' = attempts st /\
    (isAscii word = true -> len cw = len word).
Proof.
  destruct caseType; cbn [applyWordCase ret].
  - eexists. exists st. repeat split. intros Ha.
    rewrite toLowerCase_ascii by exact Ha. unfold len. now rewrite length_map.
  - eexists. exists st. repeat split. intros Ha.
    rewrite toUpperCase_ascii by exact Ha. unfold len. now rewrite length_map.
  - destruct (randomizeCase_spec word env st)
      as (cw & st' & Hrun & (Hc & Ha & _) & Hlen).
    exists cw, st'. auto.
Qed.

(** Splicing: the word sits between the two halves of the filler. *)
Lemma spliceWord_spec cw remainingLength charSet env st :
  charSet <> [] -> 0 < remainingLength ->
  exists pre post st',
    spliceWord cw remainingLength charSet env st
      = (Normal (pre ++ cw ++ post), st') /\
    apiIndex st' = apiIndex st /\ attempts st' = attempts st /\
    len pre + len post = remainingLength /\
    Forall (fun c => In c charSet) (pre ++ post).
Proof.
  intros Hne Hrem.
  destruct (generateRandomChars_spec remainingLength charSet env st Hne)
    as (rc & st1 & Hrun & (Hc & Ha & _) & Hlen & Hall).
  unfold spliceWord, bind at 1. rewrite Hrun.
  unfold bind, randomIndex, bind, mathRandom, ret. fold (afterDraw st1).
  set (p := floorTimes (random env (draws st1)) (len rc + 1)).
  assert (0 <= p <= len rc) as Hp.
  { pose proof (len_nonneg rc).
    pose proof (floorTimes_range (random env (draws st1)) (len rc + 1)).
    subst p. lia. }
  exists (slice rc 0 p), (sliceFrom rc p), (afterDraw st1).
  pose proof (slice_split rc p Hp) as Hsplit.
  split; [reflexivity |]. split; [exact Hc |]. split; [exact Ha |].
  split; [rewrite <- len_app, Hsplit; lia | now rewrite Hsplit].
Qed.


Lemma embeds_slice cw length :
  0 <= length -> embeds cw (slice cw 0 length) length.
Proof.
  intros Hl. unfold embeds. rewrite slice_prefix_len by lia.
  split; [lia |]. split.
  - intros Hlt. exists [], []. rewrite app_nil_r. cbn [app].
    apply slice_whole. lia.
  - intros Hge. split; [reflexivity | lia].
Qed.

Lemma embeds_splice cw pre post length :
  len pre + len post = length - len cw -> 0 < length - len cw ->
  embeds cw (pre ++ cw ++ post) length.
Proof.
  intros Hlen Hrem. unfold embeds. rewrite !len_app.
  split; [lia |]. split.
  - intros _. now exists pre, post.
  - intros Hge. lia.
Qed.

(** The character set, alphabet by alphabet. *)
Lemma charSetOf_alphabets options :
  charSetOf options =
    (if Options.lower options then lowercaseAlphabet else []) ++
    (if Options.upper options then uppercaseAlphabet else []) ++
    (if Options.numbers options then digitAlphabet else []) ++
    (if Options.symbols options then symbolAlphabet else []).
Proof. unfold charSetOf. rewrite upper_letters. reflexivity. Qed.

Lemma charSetOf_classes options c :
  In c (charSetOf options) -> inEnabledClass options c.
Proof.
  rewrite charSetOf_alphabets. unfold inEnabledClass. intros Hin.
  apply in_app_or in Hin as [Hin | Hin];
    [destruct (Options.lower options); [auto | destruct Hin] |].
  apply in_app_or in Hin as [Hin | Hin];
    [destruct (Options.upper options); [auto | destruct Hin] |].
  apply in_app_or in Hin as [Hin | Hin];
    [destruct (Options.numbers options); [auto | destruct Hin] |].
  destruct (Options.symbols options); [auto 6 | destruct Hin].
Qed.

(** The tail of word mode, once the case-adjusted word is there: the same
    in both branches of [passall.tsx]. *)
Lemma passall_tail cw length options env st2 :
  0 <= length ->
  exists pw st3,
    (if truthy (charSetOf options) && (0 <? length - len cw)
     then spliceWord cw (length - len cw) (charSetOf options)
     else if truthy (charSetOf options) && (length - len cw <=? 0)
          then ret (slice cw 0 length)
          else ret (slice cw 0 length)) env st2 = (Normal pw, st3) /\
    attempts st3 = attempts st2 /\ embeds cw pw length.
Proof.
  intros Hl.
  destruct (truthy (charSetOf options) && (0 <? length - len cw)) eqn:E.
  - apply andb_true_iff in E as [Hset Hrem].
    apply truthy_true in Hset. apply Z.ltb_lt in Hrem.
    destruct (spliceWord_spec cw (length - len cw) (charSetOf options) env st2
                Hset Hrem) as (pre & post & st3 & Hrun3 & _ & Ha3 & Hlen & _).
    exists (pre ++ cw ++ post), st3.
    split; [exact Hrun3 |]. split; [exact Ha3 |]. now apply embeds_splice.
  - exists (slice cw 0 length), st2.
    split; [destruct (truthy (charSetOf options) && (length - len cw <=? 0));
            reflexivity |].
    split; [reflexivity |]. now apply embeds_slice.
Qed.

(** Word mode of [passall.tsx], step by step: the call of the word source
    with its bound, then the case adjustment, which throws on a value that
    is not a string, then the composition. *)
Lemma passall_word_mode length options wordCase env st :
  0 <= length -> Options.word options = true ->
  exists v st1 k r st3,
    Passall.fetchRandomWord (Z.min length 8) env st = (Normal v, st1) /\
    (1 <= k <= 4)%nat /\
    attempts st1 = attempts st ++ passes (apiIndex st) (Z.min length 8) k /\
    Passall.generatePassword length options wordCase env st = (r, st3) /\
    attempts st3 = attempts st1 /\
    ((forall word, v <> JsonString word) -> r = Throw TypeError /\ st3 = st1) /\
    (forall word, v = JsonString word ->
       len word <= Z.min length 8 /\
       exists cw st2 pw,
         applyWordCase word wordCase env st1 = (Normal cw, st2) /\
         (isAscii word = true -> len cw = len word) /\
         r = Normal pw /\ embeds cw pw length).
Proof.
  intros Hl Hword.
  destruct (fetchRandomWord_spec Passall.localWords (Z.min length 8) env st)
    as (v & st1 & k & Hrun1 & Hk & _ & Ha1 & _ & Hv).
  change (List.length WORD_APIS) with 4%nat in Hk.
  exists v, st1, k.
  unfold Passall.generatePassword, Passall.fetchRandomWord.
  rewrite Hword, andb_false_r. unfold bind at 1. rewrite Hrun1.
  unfold bind at 1, applyWordCaseTo.
  destruct v as [| b | q | neg | w | items | fields];
    try (exists (Throw TypeError), st1;
         split; [first [reflexivity | exact Hrun1] |]; split; [exact Hk |]; split; [exact Ha1 |];
         split; [reflexivity |]; split; [reflexivity |];
         split; [intros _; split; reflexivity | intros word [=]]).
  destruct (applyWordCase_spec w wordCase env st1)
    as (cw & st2 & Hrun2 & _ & Ha2 & Hascii).
  rewrite Hrun2.
  destruct (passall_tail cw length options env st2 Hl)
    as (pw & st3 & Hrun3 & Ha3 & Hemb).
  exists (Normal pw), st3.
  split; [first [reflexivity | exact Hrun1] |].
  split; [exact Hk |]. split; [exact Ha1 |].
  split; [exact Hrun3 |]. split; [congruence |].
  split; [intros Hno; now destruct (Hno w) |].
  intros word [= <-].
  split; [pose proof (string_result_bound _ _ w Hv eq_refl); lia |].
  exists cw, st2, pw. auto.
Qed.

(** Word mode of the older composer, step by step. *)
Lemma older_word_mode length options wordCase env st :
  0 <= length -> Options.word options = true ->
  exists v st1 k r st3,
    Older.fetchRandomWord (olderBound options length) env st
      = (Normal v, st1) /\
    (1 <= k <= 4)%nat /\
    attempts st1 =
      attempts st ++ passes (apiIndex st) (olderBound options length) k /\
    Older.generatePassword length options wordCase env st = (r, st3) /\
    attempts st3 = attempts st1 /\
    ((forall word, v <> JsonString word) -> r = Throw TypeError /\ st3 = st1) /\
    (forall word, v = JsonString word ->
       len word <= olderBound options length /\
       exists cw st2 pw,
         applyWordCase word wordCase env st1 = (Normal cw, st2) /\
         (isAscii word = true -> len cw = len word) /\
         r = Normal pw /\ embeds cw pw length).
Proof.
  intros Hl Hword.
  destruct (fetchRandomWord_spec Older.localWords (olderBound options length)
              env st)
    as (v & st1 & k & Hrun1 & Hk & _ & Ha1 & _ & Hv).
  change (List.length WORD_APIS) with 4%nat in Hk.
  assert (0 <= olderBound options length) as Hb
    by (unfold olderBound; destruct (anyClass options); lia).
  exists v, st1, k.
  assert (Older.generatePassword length options wordCase env st =
          (cw <- applyWordCaseTo v wordCase ;;
           if anyClass options && negb (length - len cw <=? 0)
           then spliceWord cw (length - len cw) (charSetOf options)
           else ret (slice cw 0 length)) env st1) as ->.
  { unfold Older.generatePassword, Older.fetchRandomWord.
    rewrite Hword, andb_false_r, charSetOf_truthy. cbn [andb].
    unfold olderBound in Hrun1.
    destruct (anyClass options); cbn [negb andb];
      unfold bind at 1; rewrite Hrun1; unfold bind;
      destruct (applyWordCaseTo v wordCase env st1) as [[cw | e] st2];
      try reflexivity.
    now destruct (length - len cw <=? 0). }
  unfold bind at 1, applyWordCaseTo.
  destruct v as [| b | q | neg | w | items | fields];
    try (exists (Throw TypeError), st1;
         split; [first [reflexivity | exact Hrun1] |]; split; [exact Hk |]; split; [exact Ha1 |];
         split; [reflexivity |]; split; [reflexivity |];
         split; [intros _; split; reflexivity | intros word [=]]).
  destruct (applyWordCase_spec w wordCase env st1)
    as (cw & st2 & Hrun2 & _ & Ha2 & Hascii).
  rewrite Hrun2.
  assert (exists pw st3,
            (if anyClass options && negb (length - len cw <=? 0)
             then spliceWord cw (length - len cw) (charSetOf options)
             else ret (slice cw 0 length)) env st2 = (Normal pw, st3) /\
            attempts st3 = attempts st2 /\ embeds cw pw length)
    as (pw & st3 & Hrun3 & Ha3 & Hemb).
  { destruct (anyClass options && negb (length - len cw <=? 0)) eqn:E.
    - apply andb_true_iff in E as [Hany Hrem].
      apply negb_true_iff, Z.leb_gt in Hrem.
      destruct (spliceWord_spec cw (length - len cw) (charSetOf options) env st2)
        as (pre & post & st3 & Hrun3 & _ & Ha3 & Hlen & _);
        [now apply charSetOf_some | lia |].
      exists (pre ++ cw ++ post), st3.
      split; [exact Hrun3 |]. split; [exact Ha3 |]. apply embeds_splice; lia.
    - exists (slice cw 0 length), st2.
      split; [reflexivity |]. split; [reflexivity |]. now apply embeds_slice. }
  exists (Normal pw), st3.
  split; [first [reflexivity | exact Hrun1] |].
  split; [exact Hk |]. split; [exact Ha1 |].
  split; [exact Hrun3 |]. split; [congruence |].
  split; [intros Hno; now destruct (Hno w) |].
  intros word [= <-].
  split; [pose proof (string_result_bound _ _ w Hv eq_refl); lia |].
  exists cw, st2, pw. auto.
Qed.

(** ** Statements about the composer *)

(** C1 fails on the code. Asked for at most 8 units, with the first
    provider answering with a success status and the JSON body [["ab"]],
    [fetchRandomWord] of [passall.tsx] resolves after one pass with the array
    ["ab"], which is truthy and whose length 1 is at most 8: not a string.
    [generatePassword] with length 12, word mode and the two letter classes
    then rejects with a TypeError at the case adjustment. *)
Theorem fetchRandomWord_non_string :
  Passall.fetchRandomWord 8 misshapen initial
    = (Normal (JsonArray [JsonString (js "ab")]),
       {| apiIndex := 1; draws := 0;
          attempts := [{| provider := 0; bound := 8 |}] |}) /\
  (forall word, JsonArray [JsonString (js "ab")] <> JsonString word) /\
  Passall.generatePassword 12 lettersAndWord CaseLower misshapen initial
    = (Throw TypeError,
       {| apiIndex := 1; draws := 0;
          attempts := [{| provider := 0; bound := 8 |}] |}).
Proof.
  split; [reflexivity |]. split; [discriminate | reflexivity].
Qed.

(** C2. The character set of a configuration is the concatenation, in the
    order lowercase, uppercase, digits, symbols, of the alphabets whose flag
    is on. In [passall.tsx], for every requested length >= 0 and every
    configuration with some character class on and the word off,
    [generatePassword] ends normally with a string of exactly the requested
    length, each unit of which belongs to the alphabet of a class whose flag
    is on. The four alphabets have 26, 26, 10 and 30 units, 92 together, and
    with all four flags on a request for 16 yields 16 units of these 92. *)
Theorem character_mode :
  (forall options,
     charSetOf options =
       (if Options.lower options then lowercaseAlphabet else []) ++
       (if Options.upper options then uppercaseAlphabet else []) ++
       (if Options.numbers options then digitAlphabet else []) ++
       (if Options.symbols options then symbolAlphabet else [])) /\
  (forall length options wordCase env st,
     0 <= length -> anyClass options = true -> Options.word options = false ->
     exists pw st',
       Passall.generatePassword length options wordCase env st
         = (Normal pw, st') /\
       len pw = length /\
       Forall (inEnabledClass options) pw) /\
  (len lowercaseAlphabet = 26 /\ len uppercaseAlphabet = 26 /\
   len digitAlphabet = 10 /\ len symbolAlphabet = 30 /\
   len (lowercaseAlphabet ++ uppercaseAlphabet ++ digitAlphabet ++
        symbolAlphabet) = 92 /\
   forall wordCase env st,
     exists pw st',
       Passall.generatePassword 16 allClasses wordCase env st
         = (Normal pw, st') /\
       len pw = 16 /\
       Forall (fun c => In c (lowercaseAlphabet ++ uppercaseAlphabet ++
                              digitAlphabet ++ symbolAlphabet)) pw).
Proof.
  assert (forall length options wordCase env st,
     0 <= length -> anyClass options = true -> Options.word options = false ->
     exists pw st',
       Passall.generatePassword length options wordCase env st
         = (Normal pw, st') /\
       len pw = length /\
       Forall (fun c => In c (charSetOf options)) pw) as Hgen.
  { intros length options wordCase env st Hl Hany Hword.
    unfold Passall.generatePassword.
    rewrite Hword, charSetOf_truthy, Hany. cbn [negb andb].
    destruct (generateRandomChars_spec length (charSetOf options) env st)
      as (pw & st' & Hrun & _ & Hlen & Hall); [now apply charSetOf_some |].
    exists pw, st'. split; [exact Hrun |]. split; [lia | exact Hall]. }
  split; [exact charSetOf_alphabets |]. split.
  - intros length options wordCase env st Hl Hany Hword.
    destruct (Hgen length options wordCase env st Hl Hany Hword)
      as (pw & st' & Hrun & Hlen & Hall).
    exists pw, st'. split; [exact Hrun |]. split; [exact Hlen |].
    revert Hall. apply Forall_impl. intros c. apply charSetOf_classes.
  - split; [reflexivity |]. split; [reflexivity |]. split; [reflexivity |].
    split; [reflexivity |]. split; [reflexivity |].
    intros wordCase env st.
    destruct (Hgen 16 allClasses wordCase env st)
      as (pw & st' & Hrun & Hlen & Hall); [lia | reflexivity | reflexivity |].
    exists pw, st'. split; [exact Hrun |]. split; [exact Hlen |].
    now rewrite charSetOf_alphabets in Hall.
Qed.


(** C3. In word mode, in both composers, for every requested length >= 0,
    every word (a string) the word source resolves with and every sequence
    of draws: the case adjustment and the composer end normally; the
    password is never longer than requested; when the case-adjusted word is
    shorter than requested the password contains it as one contiguous
    piece; and when it is at least as long as requested the password is the
    word cut to exactly the requested length. *)
Theorem word_mode_composition
    (length : Z) (options : Options.t) (wordCase : WordCase)
    (env : Env) (st : State) :
  0 <= length -> Options.word options = true ->
  (forall word st1,
     Passall.fetchRandomWord (Z.min length 8) env st
       = (Normal (JsonString word), st1) ->
     exists cw st2 pw st3,
       applyWordCase word wordCase env st1 = (Normal cw, st2) /\
       Passall.generatePassword length options wordCase env st
         = (Normal pw, st3) /\
       len pw <= length /\
       (len cw < length -> exists pre post, pw = pre ++ cw ++ post) /\
       (length <= len cw -> pw = slice cw 0 length /\ len pw = length)) /\
  (forall word st1,
     Older.fetchRandomWord (olderBound options length) env st
       = (Normal (JsonString word), st1) ->
     exists cw st2 pw st3,
       applyWordCase word wordCase env st1 = (Normal cw, st2) /\
       Older.generatePassword length options wordCase env st
         = (Normal pw, st3) /\
       len pw <= length /\
       (len cw < length -> exists pre post, pw = pre ++ cw ++ post) /\
       (length <= len cw -> pw = slice cw 0 length /\ len pw = length)).
Proof.
  intros Hl Hword. split.
  - intros word st1 Hfetch.
    destruct (passall_word_mode length options wordCase env st Hl Hword)
      as (v & st1' & k & r & st3 & Hrun1 & _ & _ & Hrun3 & _ & _ & Hstr).
    rewrite Hfetch in Hrun1. injection Hrun1 as <- <-.
    destruct (Hstr word eq_refl) as (_ & cw & st2 & pw & Hrun2 & _ & -> & Hemb).
    exists cw, st2, pw, st3. unfold embeds in Hemb. tauto.
  - intros word st1 Hfetch.
    destruct (older_word_mode length options wordCase env st Hl Hword)
      as (v & st1' & k & r & st3 & Hrun1 & _ & _ & Hrun3 & _ & _ & Hstr).
    rewrite Hfetch in Hrun1. injection Hrun1 as <- <-.
    destruct (Hstr word eq_refl) as (_ & cw & st2 & pw & Hrun2 & _ & -> & Hemb).
    exists cw, st2, pw, st3. unfold embeds in Hemb. tauto.
Qed.

(** C4, amended. With the word on and a requested length >= 0:
    [passall.tsx] asks the word source for min(requestedLength, 8) under
    every combination of the class flags; the older composer does so when
    some class is on and asks for requestedLength itself when none is. In
    each case the call of the word source ends normally after one to four
    passes, every pass carries that bound, and the composer adds no pass.
    Whenever the resolved value is a string, it is no longer than the bound,
    the composer ends normally with a password that embeds the case-adjusted
    word, and that word is no longer than the bound if the resolved word is
    ASCII. *)
Theorem word_source_bound
    (length : Z) (options : Options.t) (wordCase : WordCase)
    (env : Env) (st : State) :
  0 <= length -> Options.word options = true ->
  (exists v st1 k r st3,
     Passall.fetchRandomWord (Z.min length 8) env st = (Normal v, st1) /\
     (1 <= k <= 4)%nat /\
     Passall.generatePassword length options wordCase env st = (r, st3) /\
     attempts st3 = attempts st ++ passes (apiIndex st) (Z.min length 8) k /\
     (forall word, v = JsonString word ->
        len word <= Z.min length 8 /\
        exists cw st2 pw,
          applyWordCase word wordCase env st1 = (Normal cw, st2) /\
          (isAscii word = true -> len cw <= Z.min length 8) /\
          r = Normal pw /\ embeds cw pw length)) /\
  (exists v st1 k r st3,
     Older.fetchRandomWord
       (if anyClass options then Z.min length 8 else length) env st
       = (Normal v, st1) /\
     (1 <= k <= 4)%nat /\
     Older.generatePassword length options wordCase env st = (r, st3) /\
     attempts st3 =
       attempts st ++
         passes (apiIndex st)
           (if anyClass options then Z.min length 8 else length) k /\
     (forall word, v = JsonString word ->
        len word <= (if anyClass options then Z.min length 8 else length) /\
        exists cw st2 pw,
          applyWordCase word wordCase env st1 = (Normal cw, st2) /\
          (isAscii word = true ->
             len cw <= (if anyClass options then Z.min length 8 else length)) /\
          r = Normal pw /\ embeds cw pw length)).
Proof.
  intros Hl Hword. split.
  - destruct (passall_word_mode length options wordCase env st Hl Hword)
      as (v & st1 & k & r & st3 & Hrun1 & Hk & Ha1 & Hrun3 & Ha3 & _ & Hstr).
    exists v, st1, k, r, st3.
    split; [exact Hrun1 |]. split; [exact Hk |]. split; [exact Hrun3 |].
    split; [congruence |].
    intros word Hv.
    destruct (Hstr word Hv) as (Hw & cw & st2 & pw & Hrun2 & Hascii & Hr & Hemb).
    split; [exact Hw |]. exists cw, st2, pw.
    split; [exact Hrun2 |].
    split; [intros Ha; rewrite (Hascii Ha); exact Hw |]. auto.
  - destruct (older_word_mode length options wordCase env st Hl Hword)
      as (v & st1 & k & r & st3 & Hrun1 & Hk & Ha1 & Hrun3 & Ha3 & _ & Hstr).
    unfold olderBound in *.
    exists v, st1, k, r, st3.
    split; [exact Hrun1 |]. split; [exact Hk |]. split; [exact Hrun3 |].
    split; [congruence |].
    intros word Hv.
    destruct (Hstr word Hv) as (Hw & cw & st2 & pw & Hrun2 & Hascii & Hr & Hemb).
    split; [exact Hw |]. exists cw, st2, pw.
    split; [exact Hrun2 |].
    split; [intros Ha; rewrite (Hascii Ha); exact Hw |]. auto.
Qed.

End Composer.

Lemma character_mode_witness :
  exists pw st',
    Passall.generatePassword 20 allClasses CaseUpper flaky initial
      = (Normal pw, st') /\
    len pw = 20 /\
    Forall (inEnabledClass allClasses) pw.
Proof.
  apply (proj1 (proj2 character_mode) 20 allClasses CaseUpper flaky initial);
    [lia | reflexivity | reflexivity].
Defined.


Lemma word_mode_composition_witness :
  exists cw st2 pw st3,
    applyWordCase (js "fig") CaseRandom flaky (afterRound 8)
      = (Normal cw, st2) /\
    Passall.generatePassword 12 lettersAndWord CaseRandom flaky initial
      = (Normal pw, st3) /\
    len pw <= 12 /\
    (len cw < 12 -> exists pre post, pw = pre ++ cw ++ post) /\
    (12 <= len cw -> pw = slice cw 0 12 /\ len pw = 12).
Proof.
  apply (proj1 (word_mode_composition 12 lettersAndWord CaseRandom flaky initial
                  ltac:(lia) eq_refl) (js "fig") (afterRound 8)).
  reflexivity.
Defined.

Lemma word_source_bound_witness :
  exists v st1 k r st3,
    Older.fetchRandomWord 10 offline initial = (Normal v, st1) /\
    (1 <= k <= 4)%nat /\
    Older.generatePassword 10 wordOnly CaseLower offline initial = (r, st3) /\
    attempts st3 = attempts initial ++ passes (apiIndex initial) 10 k /\
    (forall word, v = JsonString word ->
       len word <= 10 /\
       exists cw st2 pw,
         applyWordCase word CaseLower offline st1 = (Normal cw, st2) /\
         (isAscii word = true -> len cw <= 10) /\
         r = Normal pw /\ embeds cw pw 10).
Proof.
  apply (proj2 (word_source_bound 10 wordOnly CaseLower offline initial
                  ltac:(lia) eq_refl)).
Defined.

(** C4 as stated fails on the older composer: asked for 10 units with the
    word alone, it sends every pass out with the bound 10, not
    min(10, 8) = 8, and with all providers down and the draw 3/4 the
    password is the ten-letter word at index 37 of the 50 of the
    dictionary. *)
Lemma older_word_bound_counterexample :
  Older.generatePassword 10 wordOnly CaseLower offline initial
    = (Normal (js "lighthouse"), afterDraw (afterRound 10)) /\
  map bound (attempts (afterDraw (afterRound 10))) = [10; 10; 10; 10] /\
  ~ (len (js "lighthouse") <= Z.min 10 8).
Proof.
  split; [reflexivity |]. split; [reflexivity |]. cbv. intros Hle. now apply Hle.
Qed.

(** The bound on the embedded word needs the word to be ASCII. A host is
    free to lengthen other words, and engines do: the sharp s becomes SS. *)
Lemma upperSharpS_ascii s :
  forallb isAsciiUnit s = true ->
  flat_map upperSharpS s = map asciiUpper s.
Proof.
  induction s as [| c s IH]; [reflexivity |].
  cbn [forallb flat_map map]. intros Hs.
  apply andb_true_iff in Hs as [Hc Hs]. rewrite (IH Hs).
  unfold upperSharpS, isAsciiUnit in *.
  apply andb_true_iff in Hc as [_ Hc]. apply Z.ltb_lt in Hc.
  replace (c =? 223) with false by (symmetry; apply Z.eqb_neq; lia).
  reflexivity.
Qed.

Example sharp_s_lengthens :
  exists host : CaseMapping,
    len (@toUpperCase host [109; 97; 223; 115; 116; 97; 98; 101]) = 9.
Proof.
  exists (Build_CaseMapping (flat_map upperSharpS) (map asciiLower)
            upperSharpS_ascii (fun s _ => eq_refl)).
  reflexivity.
Qed.

(** * Further properties of the code *)

(** ** The Caesar transform beyond shifts 1..25 *)

Lemma shiftUnit_wide shift c :
  -26 <= shift -> isLetterUnit c = true ->
  shiftUnit shift c = caesarSpecUnit shift c.
Proof.
  intros Hs Hc. unfold caesarSpecUnit.
  destruct (letter_cases c Hc) as [[Hl Hb] | [Hl Hb]]; rewrite Hl.
  - unfold shiftUnit, fromCharCode. rewrite Hl.
    rewrite Z.rem_mod_nonneg by lia.
    replace (c - 97 + shift + 26) with (c - 97 + shift + 1 * 26) by lia.
    rewrite Z.mod_add by lia.
    pose proof (Z.mod_pos_bound (c - 97 + shift) 26 ltac:(lia)).
    rewrite (Z.mod_small (_ + 97)) by lia. lia.
  - assert (isUpperUnit c = true) as ->
      by (unfold isUpperUnit; apply andb_true_iff; split; apply Z.leb_le; lia).
    unfold shiftUnit, fromCharCode. rewrite Hl.
    rewrite Z.rem_mod_nonneg by lia.
    replace (c - 65 + shift + 26) with (c - 65 + shift + 1 * 26) by lia.
    rewrite Z.mod_add by lia.
    pose proof (Z.mod_pos_bound (c - 65 + shift) 26 ltac:(lia)).
    rewrite (Z.mod_small (_ + 65)) by lia. lia.
Qed.

Lemma caesarCipher_wide text shift :
  -26 <= shift -> caesarCipher text shift = caesarSpec text shift.
Proof.
  intros Hs. unfold caesarCipher, caesarSpec. apply map_ext. intros c.
  destruct (isLetterUnit c) eqn:Hc; [now apply shiftUnit_wide |].
  unfold caesarSpecUnit. unfold isLetterUnit in Hc.
  apply orb_false_iff in Hc as [-> ->]. reflexivity.
Qed.

Lemma caesarSpecUnit_compose a b c :
  caesarSpecUnit b (caesarSpecUnit a c) = caesarSpecUnit (a + b) c.
Proof.
  destruct (caesarSpecUnit_case a c) as [Hl Hu].
  unfold caesarSpecUnit at 1. rewrite Hl, Hu. unfold caesarSpecUnit.
  destruct (isLowerUnit c); [| destruct (isUpperUnit c); [| reflexivity]].
  - replace (97 + (c - 97 + a) mod 26 - 97 + b)
      with ((c - 97 + a) mod 26 + b) by lia.
    rewrite Z.add_mod_idemp_l by lia. do 2 f_equal. lia.
  - replace (65 + (c - 65 + a) mod 26 - 65 + b)
      with ((c - 65 + a) mod 26 + b) by lia.
    rewrite Z.add_mod_idemp_l by lia. do 2 f_equal. lia.
Qed.

Lemma caesarSpecUnit_period a b c :
  a mod 26 = b mod 26 -> caesarSpecUnit a c = caesarSpecUnit b c.
Proof.
  intros Hab. unfold caesarSpecUnit.
  rewrite <- (Z.add_mod_idemp_r (c - 97) a), <- (Z.add_mod_idemp_r (c - 65) a)
    by lia.
  rewrite Hab. rewrite !Z.add_mod_idemp_r by lia. reflexivity.
Qed.

Lemma caesarSpecUnit_zero c : caesarSpecUnit 0 c = c.
Proof.
  unfold caesarSpecUnit.
  destruct (isLowerUnit c) eqn:Hl; [| destruct (isUpperUnit c) eqn:Hu;
                                       [| reflexivity]].
  - unfold isLowerUnit in Hl. apply andb_true_iff in Hl as [H1 H2].
    apply Z.leb_le in H1, H2. rewrite Z.add_0_r, Z.mod_small by lia. lia.
  - unfold isUpperUnit in Hu. apply andb_true_iff in Hu as [H1 H2].
    apply Z.leb_le in H1, H2. rewrite Z.add_0_r, Z.mod_small by lia. lia.
Qed.

(** X1. Enciphering twice is enciphering once by the sum of the shifts,
    for integer shifts that, like their sum, are not below -26 and are at
    most 2^52 in absolute value, so that every sum of the callback is an
    exact double. *)
Theorem caesarCipher_compose (text : jsstring) (a b : Z) :
  -26 <= a -> -26 <= b -> -26 <= a + b ->
  exactShift a -> exactShift b -> exactShift (a + b) ->
  caesarCipher (caesarCipher text a) b = caesarCipher text (a + b).
Proof.
  intros Ha Hb Hab _ _ _. rewrite !caesarCipher_wide by lia.
  unfold caesarSpec. rewrite map_map. apply map_ext.
  intros c. apply caesarSpecUnit_compose.
Qed.

Lemma caesarCipher_compose_witness :
  caesarCipher (caesarCipher (js "Rot Thirteen") 13) 13
    = caesarCipher (js "Rot Thirteen") (13 + 13).
Proof.
  apply (caesarCipher_compose (js "Rot Thirteen") 13 13);
    first [lia | unfold exactShift; cbn; lia].
Defined.

(** X2. Integer shifts that are congruent modulo 26, not below -26 and at
    most 2^52 in absolute value encipher alike; in particular a shift of 0,
    26 or -26 changes nothing. *)
Theorem caesarCipher_period (text : jsstring) (a b : Z) :
  -26 <= a -> -26 <= b -> exactShift a -> exactShift b ->
  a mod 26 = b mod 26 ->
  caesarCipher text a = caesarCipher text b /\
  (b = 0 -> caesarCipher text a = text).
Proof.
  intros Ha Hb _ _ Hab.
  assert (caesarCipher text a = caesarCipher text b) as Heq.
  { rewrite !caesarCipher_wide by lia. unfold caesarSpec.
    apply map_ext. intros c. now apply caesarSpecUnit_period. }
  split; [exact Heq |]. intros ->. rewrite Heq.
  rewrite caesarCipher_wide by lia. unfold caesarSpec.
  rewrite <- (map_id text) at 2. apply map_ext. apply caesarSpecUnit_zero.
Qed.

Lemma caesarCipher_period_witness :
  caesarCipher (js "Same again") 26 = caesarCipher (js "Same again") 0 /\
  (0 = 0 -> caesarCipher (js "Same again") 26 = js "Same again").
Proof.
  apply (caesarCipher_period (js "Same again") 26 0);
    first [lia | reflexivity | unfold exactShift; cbn; lia].
Defined.

(** X3. A negative shift undoes the positive one: for every shift s in
    [0,26], enciphering by s and then by -s gives the text back. The [+ 26]
    of the code is what makes the second step wrap correctly. *)
Theorem caesarCipher_negative_inverse (text : jsstring) (s : Z) :
  0 <= s <= 26 ->
  caesarCipher (caesarCipher text s) (- s) = text.
Proof.
  intros Hs. rewrite !caesarCipher_wide by lia.
  unfold caesarSpec. rewrite map_map.
  rewrite <- (map_id text) at 2. apply map_ext. intros c.
  rewrite caesarSpecUnit_compose. replace (s + - s) with 0 by lia.
  apply caesarSpecUnit_zero.
Qed.

Lemma caesarCipher_negative_inverse_witness :
  caesarCipher (caesarCipher (js "Back & Forth") 11) (- 11) = js "Back & Forth".
Proof. apply (caesarCipher_negative_inverse (js "Back & Forth") 11). lia. Defined.

(** X4. Below -26 the wrap-around fails, for integer shifts down to -2^52:
    when the shifted index of a lowercase letter is negative and not a
    multiple of 26, the remainder is negative and the letter is sent below
    [a], out of the lowercase alphabet. *)
Theorem caesarCipher_below_domain (c shift : Z) :
  97 <= c <= 122 -> exactShift shift ->
  c - 97 + shift + 26 < 0 -> (c - 97 + shift) mod 26 <> 0 ->
  exists c', caesarCipher [c] shift = [c'] /\ 71 < c' < 97 /\
             isLowerUnit c' = false.
Proof.
  intros Hc _ Hneg Hmod.
  assert (isLowerUnit c = true) as Hl
    by (unfold isLowerUnit; apply andb_true_iff; split; apply Z.leb_le; lia).
  unfold caesarCipher, isLetterUnit. cbn [map]. rewrite Hl. cbn [orb].
  unfold shiftUnit, fromCharCode. rewrite Hl.
  set (x := c - 97 + shift + 26) in *.
  assert (-26 < Z.rem x 26 < 0) as Hr.
  { pose proof (Z.rem_bound_pos_neg x 26 ltac:(lia) ltac:(lia)) as Hb.
    assert (Z.rem x 26 <> 0) as Hnz.
    { intros Hz. apply Hmod. apply Z.rem_divide in Hz; [| lia].
      destruct Hz as [q Hq]. subst x.
      replace (c - 97 + shift) with ((q - 1) * 26) by lia.
      apply Z.mod_mul. lia. }
    lia. }
  eexists. split; [reflexivity |].
  rewrite Z.mod_small by lia.
  split; [lia |]. unfold isLowerUnit.
  replace (97 <=? _) with false by (symmetry; apply Z.leb_gt; lia).
  reflexivity.
Qed.

Lemma caesarCipher_below_domain_witness :
  exists c', caesarCipher [97] (-27) = [c'] /\ 71 < c' < 97 /\
             isLowerUnit c' = false.
Proof.
  apply (caesarCipher_below_domain 97 (-27));
    [lia | unfold exactShift; cbn; lia | lia | discriminate].
Defined.

(** ** The word source: what a call returns and where it comes from *)

Section WordSourceMore.

Context `{Engine}.

(** The dictionary step returns a non-empty entry of the filtered list after
    its one draw, or else whatever the synthetic generator makes. *)
Lemma pickLocal_result localWords maxLength env st :
  exists w st',
    pickLocal localWords maxLength env st = (Normal w, st') /\
    ((In w (validWords localWords maxLength) /\ w <> [] /\ st' = afterDraw st) \/
     generateFallbackWord maxLength env (afterDraw st) = (Normal w, st')).
Proof.
  rewrite pickLocal_unfold. cbv zeta.
  destruct (generateFallbackWord_spec maxLength env (afterDraw st))
    as (f & st' & Hrun & _).
  destruct (nth_error _ _) as [w |] eqn:E.
  - destruct (truthy w) eqn:T.
    + exists w, (afterDraw st). split; [reflexivity |]. left.
      split; [eapply nth_error_In; eauto |].
      split; [now apply truthy_true | reflexivity].
    + exists f, st'. split; [exact Hrun |]. now right.
  - exists f, st'. split; [exact Hrun |]. now right.
Qed.

Lemma len_zero_nil (s : jsstring) : len s <= 0 -> s = [].
Proof. destruct s; [reflexivity |]. unfold len. cbn [List.length]. lia. Qed.

(** A value that passed the test of a pass and is not a string is an array
    or an object with an own [length]. *)
Lemma accepted_shape maxLength v :
  truthyValue v = true -> lengthLe (lengthOf v) maxLength = true ->
  (exists w, v = JsonString w /\ w <> [] /\ len w <= maxLength) \/
  (exists items, v = JsonArray items /\
                 Z.of_nat (List.length items) <= maxLength) \/
  (exists fields l, v = JsonObject fields /\
                    getOwn (js "length") fields = Some l /\
                    lengthLe (OwnLength l) maxLength = true).
Proof.
  intros Ht Hl.
  destruct v as [| b | q | neg | w | items | fields];
    cbn [lengthOf lengthLe] in Hl; try discriminate.
  - left. exists w. split; [reflexivity |].
    split; [now apply truthy_true | now apply Z.leb_le].
  - right. left. exists items. split; [reflexivity | now apply Z.leb_le].
  - right. right. destruct (getOwn (js "length") fields) as [l |] eqn:E;
      [| discriminate].
    exists fields, l. auto.
Qed.

(** X5. For every maxLength >= 1, every dictionary and whatever the
    providers answer, [fetchRandomWord] ends normally with a truthy value.
    When the value is a string it is not empty and has at most maxLength
    units: a provider word and a dictionary entry are tested, and a synthetic
    word has maxLength letters. When it is not a string it is what a provider
    sent and the test let through: an array of at most maxLength items, or
    an object whose own [length] compares at most maxLength. *)
Theorem fetchRandomWord_nonempty
    (localWords : list jsstring) (maxLength : Z) (env : Env) (st : State) :
  1 <= maxLength ->
  exists v st',
    fetchRandomWord localWords maxLength env st = (Normal v, st') /\
    truthyValue v = true /\
    ((exists w, v = JsonString w /\ w <> [] /\ 1 <= len w <= maxLength) \/
     (exists items, v = JsonArray items /\
                    Z.of_nat (List.length items) <= maxLength) \/
     (exists fields l, v = JsonObject fields /\
                       getOwn (js "length") fields = Some l /\
                       lengthLe (OwnLength l) maxLength = true)).
Proof.
  intros Hm.
  destruct (sweep_spec (List.length WORD_APIS) maxLength env st)
    as (r & st1 & k & Hrun & _ & _ & _ & _ & _ & _ & Hb).
  unfold fetchRandomWord, bind at 1. rewrite Hrun. destruct r as [v |].
  - destruct (Hb v eq_refl) as [Ht Hle]. exists v, st1. cbn [ret].
    split; [reflexivity |]. split; [exact Ht |].
    destruct (accepted_shape maxLength v Ht Hle)
      as [(w & -> & Hne & Hw) | Hother]; [| now right].
    left. exists w. split; [reflexivity |]. split; [exact Hne |].
    apply truthy_true, truthy_len in Hne. lia.
  - unfold bind.
    destruct (pickLocal_result localWords maxLength env st1)
      as (w & st' & Hrun' & [(Hin & Hne & _) | Hsyn]).
    + rewrite Hrun'. exists (JsonString w), st'. cbn [ret truthyValue].
      split; [reflexivity |]. split; [now apply truthy_true |].
      left. exists w. split; [reflexivity |]. split; [exact Hne |].
      apply validWords_in in Hin as [_ Hle].
      apply truthy_true, truthy_len in Hne. lia.
    + destruct (generateFallbackWord_spec maxLength env (afterDraw st1))
        as (f & st2 & Hrun2 & _ & Hlen & _).
      rewrite Hrun2 in Hsyn. injection Hsyn as -> ->.
      rewrite Hrun'. exists (JsonString w), st'. cbn [ret truthyValue].
      assert (len w = maxLength) as Hw by lia.
      assert (w <> []) as Hne
        by (intros ->; unfold len in Hw; cbn in Hw; lia).
      split; [reflexivity |]. split; [now apply truthy_true |].
      left. exists w. split; [reflexivity |]. split; [exact Hne | lia].
Qed.

(** X6. For maxLength <= 0 (the case the callers never produce) no provider
    string can pass the test and no dictionary entry fits. The call ends
    normally; when it returns a string, that string is empty and the call
    made the full round of four passes; any other result is a value that a
    provider sent and the test let through, such as an empty array for
    maxLength = 0. *)
Theorem fetchRandomWord_nonpositive
    (localWords : list jsstring) (maxLength : Z) (env : Env) (st : State) :
  maxLength <= 0 ->
  exists v st',
    fetchRandomWord localWords maxLength env st = (Normal v, st') /\
    (forall w, v = JsonString w ->
       w = [] /\
       apiIndex st' = (apiIndex st + 4)%nat /\
       attempts st' = attempts st ++ passes (apiIndex st) maxLength 4) /\
    ((forall w, v <> JsonString w) ->
       (exists items, v = JsonArray items /\
                      Z.of_nat (List.length items) <= maxLength) \/
       (exists fields l, v = JsonObject fields /\
                         getOwn (js "length") fields = Some l /\
                         lengthLe (OwnLength l) maxLength = true)).
Proof.
  intros Hm.
  destruct (sweep_spec (List.length WORD_APIS) maxLength env st)
    as (r & st1 & k & Hrun & _ & Hn & _ & Hc & Ha & _ & Hb).
  unfold fetchRandomWord, bind at 1. rewrite Hrun. destruct r as [v |].
  - destruct (Hb v eq_refl) as [Ht Hle]. exists v, st1. cbn [ret].
    split; [reflexivity |].
    destruct (accepted_shape maxLength v Ht Hle)
      as [(w & -> & Hne & Hw) | Hother].
    + apply truthy_true, truthy_len in Hne. lia.
    + split; [| intros _; exact Hother].
      intros w ->. destruct Hother as [(i & [=] & _) | (f & l & [=] & _)].
  - specialize (Hn eq_refl). subst k.
    destruct (pickLocal_spec localWords maxLength env st1)
      as (w' & st'' & Hrun'' & Hc' & Ha' & _ & _).
    destruct (pickLocal_result localWords maxLength env st1)
      as (w & st' & Hrun' & [(Hin & Hne & _) | Hsyn]).
    + apply validWords_in in Hin as [_ Hle].
      apply truthy_true, truthy_len in Hne. lia.
    + destruct (generateFallbackWord_spec maxLength env (afterDraw st1))
        as (f & st2 & Hrun2 & _ & Hlen & _).
      rewrite Hrun2 in Hsyn. injection Hsyn as -> ->.
      rewrite Hrun' in Hrun''. injection Hrun'' as <- <-.
      assert (w = []) as -> by (apply len_zero_nil; lia).
      exists (JsonString []), st'. unfold bind. rewrite Hrun'. cbn [ret].
      split; [reflexivity |]. split.
      * intros w [= <-]. split; [reflexivity |].
        split; [rewrite Hc', Hc; reflexivity |].
        rewrite Ha', Ha. reflexivity.
      * intros Hno. now destruct (Hno []).
Qed.

(** X7. A pass hands back a value only when the request was answered with
    a success status and a body that decodes; the value is then read from
    the decoded body the way the parser of the provider reads it (the
    element 0, the [word] of the element 0, or the [word] of a drawn
    element), it is truthy and its length passes the test. Nothing is ever
    accepted from a rejected request, a non-success status or an undecodable
    body. *)
Theorem word_only_from_ok_response
    (api : WordApi) (maxLength : Z) (env : Env) (st st' : State) (v : Json) :
  In api WORD_APIS ->
  tryProvider api maxLength env st = (Normal (Some v), st') ->
  exists u data,
    url api maxLength = Normal u /\
    network env (List.length (attempts st)) u = Responds true (Some data) /\
    (element0 data = Normal (Some v) \/
     (exists x, element0 data = Normal x /\ wordField x = Some v) \/
     (exists x st0, randomElement data env st = (Normal x, st0) /\
                    wordField x = Some v)) /\
    truthyValue v = true /\ lengthLe (lengthOf v) maxLength = true.
Proof.
  intros Hin Hrun.
  unfold tryProvider, tryCatch, bind at 1, lift in Hrun.
  destruct (url api maxLength) as [u | e] eqn:Hu; [| discriminate].
  unfold bind at 1, fetchWithTimeout in Hrun.
  destruct (network env (List.length (attempts st)) u) as [e | ok body] eqn:Hnet;
    [discriminate |].
  cbn [fst snd] in Hrun. destruct ok; cbn [negb] in Hrun; [| discriminate].
  unfold bind at 1, responseJson in Hrun.
  destruct body as [data |]; [| discriminate]. cbn [ret] in Hrun.
  unfold bind in Hrun.
  destruct (parser api data env st) as [[x | e] st1] eqn:P; [| discriminate].
  cbn [ret] in Hrun. injection Hrun as Hacc _.
  assert (x = Some v /\ truthyValue v = true /\
          lengthLe (lengthOf v) maxLength = true) as (-> & Ht & Hl).
  { unfold accepted in Hacc. destruct x as [y |]; [| discriminate].
    destruct (truthyValue y) eqn:T; cbn [andb] in Hacc; [| discriminate].
    destruct (lengthLe (lengthOf y) maxLength) eqn:L; [| discriminate].
    injection Hacc as ->. auto. }
  exists u, data.
  split; [reflexivity |]. split; [exact Hnet |]. split; [| auto].
  cbn in Hin.
  destruct Hin as [<- | [<- | [<- | [<- | []]]]];
    cbv [parser bind lift ret] in P.
  - left. destruct (element0 data) as [y | e]; [| discriminate].
    injection P as -> _. reflexivity.
  - right. right.
    destruct (randomElement data env st) as [[y | e] st0] eqn:R;
      [| discriminate].
    injection P as Hw _. exists y, st0. auto.
  - right. left. destruct (element0 data) as [y | e]; [| discriminate].
    injection P as Hw _. exists y. auto.
  - left. destruct (element0 data) as [y | e]; [| discriminate].
    injection P as -> _. reflexivity.
Qed.

Lemma seq_from c k : seq c k = map (fun j => (c + j)%nat) (seq 0 k).
Proof.
  revert c. induction k as [| k IH]; intros c; [reflexivity |].
  cbn [seq map]. rewrite Nat.add_0_r. f_equal.
  rewrite (IH (S c)), <- seq_shift, map_map. apply map_ext.
  intros j. lia.
Qed.

Lemma roundRobin_app c k maxLength :
  roundRobin (c + k) = roundRobin c ++ map provider (passes c maxLength k).
Proof.
  unfold roundRobin, passes. rewrite seq_app, map_app. f_equal.
  cbn [Nat.add]. rewrite (seq_from c k), !map_map. reflexivity.
Qed.

(** The log of provider indices is the round-robin sequence, and the cursor
    counts the passes: an invariant of every call. *)
Lemma fetchAll_invariant localWords env maxLengths st :
  apiIndex st = List.length (attempts st) ->
  map provider (attempts st) = roundRobin (apiIndex st) ->
  exists ws st',
    fetchAll localWords maxLengths env st = (Normal ws, st') /\
    List.length ws = List.length maxLengths /\
    apiIndex st' = List.length (attempts st') /\
    map provider (attempts st') = roundRobin (apiIndex st').
Proof.
  revert st. induction maxLengths as [| m rest IH]; intros st Hc Hr.
  - exists [], st. cbn [fetchAll ret]. auto.
  - destruct (fetchRandomWord_spec localWords m env st)
      as (w & st1 & k & Hrun & _ & Hc1 & Ha1 & _ & _).
    destruct (IH st1) as (ws & st' & Hrun' & Hlen & Hc' & Hr').
    + rewrite Hc1, Ha1, length_app, passes_length. lia.
    + rewrite Hc1, Ha1, map_app, Hr. symmetry. apply roundRobin_app.
    + exists (w :: ws), st'. cbn [fetchAll]. unfold bind.
      rewrite Hrun, Hrun'. cbn [ret List.length].
      split; [reflexivity |]. split; [lia |]. split; assumption.
Qed.

(** X8. Whatever the providers answer, over any sequence of consecutive
    calls from the initial state the cursor equals the number of passes made
    so far, and pass number j (counted from 0 over all the calls) goes to
    provider j mod 4: the rotation never skips or repeats a provider, also
    when calls stop early on a success. *)
Theorem rotation_invariant
    (localWords : list jsstring) (env : Env) (maxLengths : list Z) :
  exists ws st',
    fetchAll localWords maxLengths env initial = (Normal ws, st') /\
    List.length ws = List.length maxLengths /\
    apiIndex st' = List.length (attempts st') /\
    map provider (attempts st') = roundRobin (List.length (attempts st')).
Proof.
  destruct (fetchAll_invariant localWords env maxLengths initial)
    as (ws & st' & Hrun & Hlen & Hc & Hr); [reflexivity | reflexivity |].
  exists ws, st'. rewrite <- Hc. auto.
Qed.

End WordSourceMore.

Lemma fetchRandomWord_nonempty_witness :
  exists v st',
    fetchRandomWord Older.localWords 1 flaky initial = (Normal v, st') /\
    truthyValue v = true /\
    ((exists w, v = JsonString w /\ w <> [] /\ 1 <= len w <= 1) \/
     (exists items, v = JsonArray items /\
                    Z.of_nat (List.length items) <= 1) \/
     (exists fields l, v = JsonObject fields /\
                       getOwn (js "length") fields = Some l /\
                       lengthLe (OwnLength l) 1 = true)).
Proof.
  apply (fetchRandomWord_nonempty Older.localWords 1 flaky initial). lia.
Defined.

Lemma fetchRandomWord_nonpositive_witness :
  exists v st',
    fetchRandomWord Passall.localWords 0 online initial = (Normal v, st') /\
    (forall w, v = JsonString w ->
       w = [] /\
       apiIndex st' = (apiIndex initial + 4)%nat /\
       attempts st' = attempts initial ++ passes (apiIndex initial) 0 4) /\
    ((forall w, v <> JsonString w) ->
       (exists items, v = JsonArray items /\
                      Z.of_nat (List.length items) <= 0) \/
       (exists fields l, v = JsonObject fields /\
                         getOwn (js "length") fields = Some l /\
                         lengthLe (OwnLength l) 0 = true)).
Proof.
  apply (fetchRandomWord_nonpositive Passall.localWords 0 online initial). lia.
Defined.

Lemma word_only_from_ok_response_witness :
  exists u data,
    url randomWordApi 8 = Normal u /\
    network online (List.length (attempts initial)) u
      = Responds true (Some data) /\
    (element0 data = Normal (Some (JsonString (js "plum"))) \/
     (exists x, element0 data = Normal x /\
                wordField x = Some (JsonString (js "plum"))) \/
     (exists x st0, randomElement data online initial = (Normal x, st0) /\
                    wordField x = Some (JsonString (js "plum")))) /\
    truthyValue (JsonString (js "plum")) = true /\
    lengthLe (lengthOf (JsonString (js "plum"))) 8 = true.
Proof.
  apply (word_only_from_ok_response randomWordApi 8 online initial initial
           (JsonString (js "plum")));
    [left; reflexivity | reflexivity].
Defined.

(** ** The composers: effects, exact length, filler *)

Section ComposerMore.

Context `{CaseMapping} `{Engine}.

(** X9. With the word off, the two composers agree and contact no provider:
    the cursor and the attempt log are untouched, and [Math.random] is
    called once per unit of the password when some class is on, never when
    none is. This holds for every length, a negative one giving the empty
    string. *)
Theorem character_mode_effects
    (length : Z) (options : Options.t) (wordCase : WordCase)
    (env : Env) (st : State) :
  Options.word options = false ->
  exists pw st',
    Passall.generatePassword length options wordCase env st
      = (Normal pw, st') /\
    Older.generatePassword length options wordCase env st
      = (Normal pw, st') /\
    apiIndex st' = apiIndex st /\ attempts st' = attempts st /\
    draws st' =
      (draws st + (if anyClass options then Z.to_nat length else 0))%nat /\
    len pw = (if anyClass options then Z.max 0 length else 0).
Proof.
  intros Hword.
  unfold Passall.generatePassword, Older.generatePassword.
  rewrite Hword, charSetOf_truthy. destruct (anyClass options) eqn:Hany;
    cbn [negb andb].
  - destruct (generateRandomChars_spec length (charSetOf options) env st)
      as (pw & st' & Hrun & (Hc & Ha & Hd) & Hlen & _);
      [now apply charSetOf_some |].
    exists pw, st'. rewrite Hrun. auto 10.
  - exists [], st. cbn [ret]. repeat split; lia.
Qed.

(** Word mode with some class on, in either composer: what is built from
    the case-adjusted word. *)
Lemma word_and_classes_tail cw length options env st :
  0 <= length -> anyClass options = true ->
  exists pre post st',
    (if truthy (charSetOf options) && (0 <? length - len cw)
     then spliceWord cw (length - len cw) (charSetOf options)
     else ret (slice cw 0 length)) env st
      = (Normal (pre ++ slice cw 0 length ++ post), st') /\
    len (pre ++ slice cw 0 length ++ post) = length /\
    Forall (fun c => In c (charSetOf options)) (pre ++ post).
Proof.
  intros Hl Hany. rewrite charSetOf_truthy, Hany. cbn [andb].
  destruct (0 <? length - len cw) eqn:E.
  - apply Z.ltb_lt in E.
    destruct (spliceWord_spec cw (length - len cw) (charSetOf options) env st)
      as (pre & post & st' & Hrun & _ & _ & Hlen & Hall);
      [now apply charSetOf_some | exact E |].
    exists pre, post, st'. rewrite slice_whole by lia.
    split; [exact Hrun |]. split; [rewrite !len_app; lia | exact Hall].
  - apply Z.ltb_ge in E. exists [], [], st. cbn [ret app].
    rewrite app_nil_r. split; [reflexivity |].
    split; [rewrite slice_prefix_len by lia; lia | constructor].
Qed.

(** X10. With the word on and some class on, whenever the word source
    resolves with a string, both composers return exactly the requested
    number of units (for a request >= 0): the case-adjusted word, cut to the
    requested length if it is longer, with units of the character set before
    and after it. *)
Theorem word_and_classes_exact_length
    (length : Z) (options : Options.t) (wordCase : WordCase)
    (env : Env) (st : State) :
  0 <= length -> Options.word options = true -> anyClass options = true ->
  (forall word st1,
     Passall.fetchRandomWord (Z.min length 8) env st
       = (Normal (JsonString word), st1) ->
     exists cw st2 pre post st3,
       applyWordCase word wordCase env st1 = (Normal cw, st2) /\
       Passall.generatePassword length options wordCase env st
         = (Normal (pre ++ slice cw 0 length ++ post), st3) /\
       len (pre ++ slice cw 0 length ++ post) = length /\
       Forall (fun c => In c (charSetOf options)) (pre ++ post)) /\
  (forall word st1,
     Older.fetchRandomWord (Z.min length 8) env st
       = (Normal (JsonString word), st1) ->
     exists cw st2 pre post st3,
       applyWordCase word wordCase env st1 = (Normal cw, st2) /\
       Older.generatePassword length options wordCase env st
         = (Normal (pre ++ slice cw 0 length ++ post), st3) /\
       len (pre ++ slice cw 0 length ++ post) = length /\
       Forall (fun c => In c (charSetOf options)) (pre ++ post)).
Proof.
  intros Hl Hword Hany. split.
  - intros word st1 Hrun1.
    destruct (applyWordCase_spec word wordCase env st1)
      as (cw & st2 & Hrun2 & _).
    destruct (word_and_classes_tail cw length options env st2 Hl Hany)
      as (pre & post & st3 & Hrun3 & Hlen & Hall).
    exists cw, st2, pre, post, st3.
    split; [exact Hrun2 |]. split; [| split; assumption].
    unfold Passall.generatePassword.
    rewrite Hword, andb_false_r. unfold bind at 1. rewrite Hrun1.
    unfold bind at 1, applyWordCaseTo. rewrite Hrun2. rewrite <- Hrun3.
    destruct (truthy (charSetOf options) && (0 <? length - len cw));
      [reflexivity |].
    destruct (truthy (charSetOf options) && (length - len cw <=? 0));
      reflexivity.
  - intros word st1 Hrun1.
    destruct (applyWordCase_spec word wordCase env st1)
      as (cw & st2 & Hrun2 & _).
    destruct (word_and_classes_tail cw length options env st2 Hl Hany)
      as (pre & post & st3 & Hrun3 & Hlen & Hall).
    exists cw, st2, pre, post, st3.
    split; [exact Hrun2 |]. split; [| split; assumption].
    unfold Older.generatePassword.
    rewrite Hword, andb_false_r, charSetOf_truthy, Hany. cbn [negb andb].
    unfold bind at 1. rewrite Hrun1.
    unfold bind at 1, applyWordCaseTo. rewrite Hrun2. rewrite <- Hrun3.
    rewrite charSetOf_truthy, Hany. cbn [andb].
    destruct (Z.ltb_spec 0 (length - len cw));
      destruct (Z.leb_spec (length - len cw) 0); try lia; reflexivity.
Qed.

Ltac unit_bounds :=
  unfold isAsciiUnit, isLetterUnit, asciiUpper, asciiLower,
    isLowerUnit, isUpperUnit in *;
  repeat match goal with
         | H : context [?a <=? ?b] |- _ => destruct (Z.leb_spec a b)
         | H : context [?a <? ?b] |- _ => destruct (Z.ltb_spec a b)
         | |- context [?a <=? ?b] => destruct (Z.leb_spec a b)
         | |- context [?a <? ?b] => destruct (Z.ltb_spec a b)
         end;
  cbn [andb orb negb] in *; try discriminate; try reflexivity; try lia.

Lemma asciiLower_of_case c c' :
  c' = asciiUpper c \/ c' = asciiLower c -> asciiLower c' = asciiLower c.
Proof. intros [-> | ->]; unit_bounds. Qed.

Lemma asciiLower_not_upper c : negb (isUpperUnit (asciiLower c)) = true.
Proof. unit_bounds. Qed.

Lemma asciiUpper_not_lower c : negb (isLowerUnit (asciiUpper c)) = true.
Proof. unit_bounds. Qed.

Lemma lower_case_letter c c' :
  isLowerUnit c = true -> c' = asciiUpper c \/ c' = asciiLower c ->
  isLetterUnit c' = true.
Proof. intros Hc [-> | ->]; unit_bounds. Qed.

Lemma lower_is_ascii c : isLowerUnit c = true -> isAsciiUnit c = true.
Proof. intros Hc. unit_bounds. Qed.

Lemma allLower_isAscii w : allLower w = true -> isAscii w = true.
Proof.
  unfold allLower, isAscii. rewrite !forallb_forall.
  intros Hw c Hc. apply lower_is_ascii. now apply Hw.
Qed.

(** Random case on an ASCII word: unit by unit, the upper or the lower form. *)
Lemma randomizeCase_units word env st :
  isAscii word = true ->
  exists cw st',
    randomizeCase word env st = (Normal cw, st') /\
    Forall2 (fun c c' => c' = asciiUpper c \/ c' = asciiLower c) word cw.
Proof.
  revert st. induction word as [| c rest IH]; intros st Hascii.
  - exists [], st. split; [reflexivity | constructor].
  - unfold isAscii in *. cbn [forallb] in Hascii.
    apply andb_true_iff in Hascii as [Hc Hrest].
    cbn [randomizeCase]. unfold bind at 1, mathRandom. fold (afterDraw st).
    destruct (IH (afterDraw st) Hrest) as (cw & st' & Hrun & Hall).
    unfold bind. rewrite Hrun. cbn [ret].
    assert (forallb isAsciiUnit [c] = true) as Hone by (cbn; now rewrite Hc).
    rewrite (toUpperCase_ascii [c] Hone), (toLowerCase_ascii [c] Hone).
    cbn [map]. destruct (overHalf _); eexists; exists st';
      (split; [reflexivity |]); constructor; auto.
Qed.

Lemma applyWordCase_units word caseType env st :
  isAscii word = true ->
  exists cw st',
    applyWordCase word caseType env st = (Normal cw, st') /\
    Forall2 (fun c c' => c' = asciiUpper c \/ c' = asciiLower c) word cw /\
    (caseType = CaseLower -> cw = map asciiLower word) /\
    (caseType = CaseUpper -> cw = map asciiUpper word).
Proof.
  intros Hascii.
  assert (forall f : Z -> Z, (forall c, f c = asciiUpper c \/ f c = asciiLower c) ->
            Forall2 (fun c c' => c' = asciiUpper c \/ c' = asciiLower c)
              word (map f word)) as Hmap.
  { intros f Hf. clear Hascii. induction word; cbn [map]; constructor; auto. }
  destruct caseType; cbn [applyWordCase ret].
  - exists (map asciiLower word), st.
    rewrite (toLowerCase_ascii word Hascii).
    split; [reflexivity |]. split; [apply Hmap; auto |].
    split; [reflexivity | discriminate].
  - exists (map asciiUpper word), st.
    rewrite (toUpperCase_ascii word Hascii).
    split; [reflexivity |]. split; [apply Hmap; auto |].
    split; [discriminate | reflexivity].
  - destruct (randomizeCase_units word env st Hascii) as (cw & st' & Hrun & Hall).
    exists cw, st'. split; [exact Hrun |]. split; [exact Hall |].
    split; discriminate.
Qed.

(** X11. Case adjustment of an ASCII word changes nothing but the case: the
    result has the length of the word and the same lowercase form; with the
    lower case selected it has no uppercase letter, with the upper case no
    lowercase letter; and no provider is contacted. *)
Theorem applyWordCase_only_case
    (word : jsstring) (caseType : WordCase) (env : Env) (st : State) :
  isAscii word = true ->
  exists cw st',
    applyWordCase word caseType env st = (Normal cw, st') /\
    len cw = len word /\
    map asciiLower cw = map asciiLower word /\
    (caseType = CaseLower -> noUpper cw = true) /\
    (caseType = CaseUpper -> noLower cw = true) /\
    apiIndex st' = apiIndex st /\ attempts st' = attempts st.
Proof.
  intros Hascii.
  destruct (applyWordCase_units word caseType env st Hascii)
    as (cw & st' & Hrun & Hall & Hlow & Hup).
  destruct (applyWordCase_spec word caseType env st)
    as (cw' & st'' & Hrun' & Hc & Ha & _).
  rewrite Hrun in Hrun'. injection Hrun' as <- <-.
  exists cw, st'. split; [exact Hrun |].
  split; [unfold len; now rewrite (Forall2_length Hall) |].
  split.
  { clear - Hall. induction Hall; cbn [map]; [reflexivity |].
    f_equal; [now apply asciiLower_of_case | assumption]. }
  split.
  { intros E. rewrite (Hlow E). unfold noUpper. apply forallb_forall.
    intros c Hin. apply in_map_iff in Hin as (c0 & <- & _).
    apply asciiLower_not_upper. }
  split; [| split; assumption].
  intros E. rewrite (Hup E). unfold noLower. apply forallb_forall.
  intros c Hin. apply in_map_iff in Hin as (c0 & <- & _).
  apply asciiUpper_not_lower.
Qed.

Lemma alternates_allLower w : alternates w -> allLower w = true.
Proof.
  intros Halt. unfold allLower. apply forallb_forall. intros c Hin.
  apply In_nth_error in Hin as [i Hi]. specialize (Halt i c Hi).
  assert (forallb isLowerUnit consonants = true) as Hcons by reflexivity.
  assert (forallb isLowerUnit vowels = true) as Hvow by reflexivity.
  rewrite forallb_forall in Hcons, Hvow.
  destruct (Nat.even i); auto.
Qed.

Lemma passall_words_lower w :
  In w Passall.localWords -> allLower w = true /\ 0 < len w.
Proof.
  assert (forallb (fun w => allLower w && (0 <? len w)) Passall.localWords
          = true) as Hall by (vm_compute; reflexivity).
  rewrite forallb_forall in Hall. intros Hin.
  apply Hall, andb_true_iff in Hin as [Hl Hp]. now apply Z.ltb_lt in Hp.
Qed.

Lemma older_words_lower w :
  In w Older.localWords -> (allLower w = true /\ 0 < len w) /\ len w <= 10.
Proof.
  assert (forallb (fun w => allLower w && (0 <? len w) && (len w <=? 10))
            Older.localWords = true) as Hall by (vm_compute; reflexivity).
  rewrite forallb_forall in Hall. intros Hin.
  apply Hall in Hin. apply andb_true_iff in Hin as [Hin H10].
  apply andb_true_iff in Hin as [Hl Hp].
  apply Z.ltb_lt in Hp. apply Z.leb_le in H10. auto.
Qed.

Lemma allLower_fixed w : allLower w = true -> map asciiLower w = w.
Proof.
  unfold allLower. intros Hw. rewrite <- (map_id w) at 2.
  apply map_ext_in. intros c Hc.
  rewrite forallb_forall in Hw. specialize (Hw c Hc). unit_bounds.
Qed.

(** With every request failing, the word is a lowercase dictionary entry
    within the bound, or a synthetic word when no entry fits. *)
Lemma offline_word localWords m env st :
  allFail env ->
  (forall w, In w localWords -> allLower w = true /\ 0 < len w) ->
  exists w st',
    fetchRandomWord localWords m env st = (Normal (JsonString w), st') /\
    allLower w = true /\
    ((In w localWords /\ len w <= m) \/
     (validWords localWords m = [] /\ len w = Z.max 0 m /\ alternates w)).
Proof.
  intros Hfail Hwords.
  destruct (sweep_allFail (List.length WORD_APIS) m env st Hfail)
    as [st1 Hsweep].
  rewrite (fetchRandomWord_after_sweep _ _ _ _ _ Hsweep). unfold bind.
  destruct (validWords localWords m) as [| v rest] eqn:E.
  - rewrite (pickLocal_synthetic _ _ _ _ E).
    destruct (generateFallbackWord_spec m env (afterDraw st1))
      as (w & st' & Hrun & _ & Hlen & Halt).
    rewrite Hrun. exists w, st'. split; [reflexivity |].
    split; [now apply alternates_allLower |]. right. auto.
  - destruct (pickLocal_entry localWords m env st1) as (_ & w & Hnth & Hrun);
      [intros w Hw; now apply Hwords | rewrite E; discriminate |].
    apply nth_error_In, validWords_in in Hnth as [Hin Hle].
    rewrite Hrun. exists w, (afterDraw st1). split; [reflexivity |].
    split; [now apply Hwords |]. left. auto.
Qed.

Lemma cased_lower_letters w cw :
  allLower w = true ->
  Forall2 (fun c c' => c' = asciiUpper c \/ c' = asciiLower c) w cw ->
  forallb isLetterUnit cw = true /\ len cw = len w.
Proof.
  intros Hw Hall. split.
  - unfold allLower in Hw. clear - Hw Hall.
    induction Hall as [| c c' w cw Hc Hrest IH]; [reflexivity |].
    cbn [forallb] in *. apply andb_true_iff in Hw as [Hl Hw].
    rewrite (lower_case_letter c c' Hl Hc). now apply IH.
  - unfold len. now rewrite (Forall2_length Hall).
Qed.


(** X17. In word mode, for a request >= 0, a composer ends normally exactly
    when the word source resolves with a string. When the resolved value is
    not a string (a provider sent an array or an object that passed the
    test) the case adjustment throws, and the composer rejects with a
    TypeError in the state the word source left, without a further draw. *)
Theorem non_string_word_rejects
    (length : Z) (options : Options.t) (wordCase : WordCase)
    (env : Env) (st : State) :
  0 <= length -> Options.word options = true ->
  (exists v st1 r st3,
     Passall.fetchRandomWord (Z.min length 8) env st = (Normal v, st1) /\
     Passall.generatePassword length options wordCase env st = (r, st3) /\
     ((exists word, v = JsonString word) <-> (exists pw, r = Normal pw)) /\
     ((forall word, v <> JsonString word) ->
        r = Throw TypeError /\ st3 = st1)) /\
  (exists v st1 r st3,
     Older.fetchRandomWord (olderBound options length) env st
       = (Normal v, st1) /\
     Older.generatePassword length options wordCase env st = (r, st3) /\
     ((exists word, v = JsonString word) <-> (exists pw, r = Normal pw)) /\
     ((forall word, v <> JsonString word) ->
        r = Throw TypeError /\ st3 = st1)).
Proof.
  intros Hl Hword.
  assert (forall (v : Json) (r : Completion jsstring) (st1 st3 : State),
            ((forall word, v <> JsonString word) ->
               r = Throw TypeError /\ st3 = st1) ->
            (forall word, v = JsonString word ->
               len word <= len word /\
               exists pw : jsstring, r = Normal pw) ->
            ((exists word, v = JsonString word) <->
             (exists pw, r = Normal pw))) as Hiff.
  { intros v r st1 st3 Hno Hstr. split.
    - intros [word Hv]. now destruct (Hstr word Hv).
    - intros [pw ->]. destruct v as [| b | q | neg | w | items | fields];
        try (destruct (Hno ltac:(intros word; discriminate)) as [[=] _]).
      now exists w. }
  split.
  - destruct (passall_word_mode length options wordCase env st Hl Hword)
      as (v & st1 & k & r & st3 & Hrun1 & _ & _ & Hrun3 & _ & Hno & Hstr).
    exists v, st1, r, st3.
    split; [exact Hrun1 |]. split; [exact Hrun3 |]. split; [| exact Hno].
    apply (Hiff v r st1 st3 Hno). intros word Hv.
    destruct (Hstr word Hv) as (_ & cw & st2 & pw & _ & _ & Hr & _).
    split; [lia | now exists pw].
  - destruct (older_word_mode length options wordCase env st Hl Hword)
      as (v & st1 & k & r & st3 & Hrun1 & _ & _ & Hrun3 & _ & Hno & Hstr).
    exists v, st1, r, st3.
    split; [exact Hrun1 |]. split; [exact Hrun3 |]. split; [| exact Hno].
    apply (Hiff v r st1 st3 Hno). intros word Hv.
    destruct (Hstr word Hv) as (_ & cw & st2 & pw & _ & _ & Hr & _).
    split; [lia | now exists pw].
Qed.

(** The callback of the filler: one draw, one unit of the set. *)
Lemma pickChar_spec charSet env st :
  charSet <> [] ->
  exists c,
    (i <- randomIndex (len charSet) ;; ret (charAt charSet i)) env st
      = (Normal [c], afterDraw st) /\ In c charSet.
Proof.
  intros Hne. assert (0 < len charSet) as Hlen
    by (now apply truthy_len, truthy_true).
  unfold bind, randomIndex, bind, mathRandom, ret. fold (afterDraw st).
  destruct (charAt_in charSet (floorTimes (random env (draws st)) (len charSet)))
    as (c & -> & Hc).
  { apply floorTimes_range. lia. }
  exists c. auto.
Qed.

(** The filler of cipher mode: [n] one-unit pieces of the set. *)
Lemma arrayFrom_chars n charSet env st :
  charSet <> [] ->
  exists pieces st',
    arrayFrom n (i <- randomIndex (len charSet) ;; ret (charAt charSet i))
      env st = (Normal pieces, st') /\
    readsTape st st' n /\
    len (joinEmpty pieces) = Z.of_nat n /\
    Forall (fun c => In c charSet) (joinEmpty pieces).
Proof.
  intros Hne.
  pose proof (fun st => pickChar_spec charSet env st Hne) as Hcb.
  set (cb := (i <- randomIndex (len charSet) ;; ret (charAt charSet i))) in *.
  clearbody cb.
  revert st. induction n as [| n IH]; intros st.
  - exists [], st. cbn [arrayFrom ret joinEmpty List.concat].
    split; [reflexivity |]. split; [unfold readsTape; repeat split; lia |].
    split; [reflexivity | constructor].
  - cbn [arrayFrom]. unfold bind at 1.
    destruct (Hcb st) as (c & -> & Hc).
    destruct (IH (afterDraw st))
      as (pieces & st' & Hrun & (Hc1 & Ha1 & Hd1) & Hl & Hall).
    unfold bind. rewrite Hrun. exists ([c] :: pieces), st'. cbn [ret].
    split; [reflexivity |].
    split; [unfold readsTape; cbn [afterDraw apiIndex draws attempts] in *;
            repeat split; lia || congruence |].
    unfold joinEmpty in *. cbn [List.concat app].
    split; [unfold len in *; cbn [List.length]; lia | now constructor].
Qed.

(** X13. Cipher mode of [handleGenerate], for a requested length >= 0: it
    contacts no provider and ignores the word settings; the phrase shown is
    the Caesar transform of the input, of the same length; the password is
    that ciphertext, cut to the requested length if it is longer, between
    units of the character set; it has exactly the requested length when
    some class is on, and is the bare (possibly cut) ciphertext when none
    is. *)
Theorem cipher_mode
    (app : App.t) (env : Env) (st : State) :
  App.caesar app = true -> 0 <= App.length app ->
  let base := caesarCipher (App.caesarInput app) (App.caesarShift app) in
  exists pre post st',
    App.handleGenerate app env st
      = (Normal {| App.password :=
                     pre ++ slice base 0 (App.length app) ++ post;
                   App.caesarVisual := Some (App.caesarInput app, base) |},
         st') /\
    apiIndex st' = apiIndex st /\ attempts st' = attempts st /\
    len base = len (App.caesarInput app) /\
    Forall (fun c => In c (charSetOf (App.options app))) (pre ++ post) /\
    len (pre ++ slice base 0 (App.length app) ++ post) <= App.length app /\
    (anyClass (App.options app) = true ->
       len (pre ++ slice base 0 (App.length app) ++ post) = App.length app) /\
    (anyClass (App.options app) = false -> pre = [] /\ post = []).
Proof.
  intros Hcaesar Hl base.
  assert (len base = len (App.caesarInput app)) as Hbase
    by (unfold base, caesarCipher, len; now rewrite length_map).
  unfold App.handleGenerate. rewrite Hcaesar. fold base. cbv zeta.
  rewrite charSetOf_truthy.
  destruct (anyClass (App.options app) && (len base <? App.length app)) eqn:E.
  - apply andb_true_iff in E as [Hany Hlt]. apply Z.ltb_lt in Hlt.
    destruct (arrayFrom_chars (Z.to_nat (App.length app - len base))
                (charSetOf (App.options app)) env st)
      as (pieces & st1 & Hrun & (Hc & Ha & _) & Hlen & Hall);
      [now apply charSetOf_some |].
    unfold bind at 1. rewrite Hrun.
    unfold bind, randomIndex, bind, mathRandom, ret. fold (afterDraw st1).
    set (extra := joinEmpty pieces) in *.
    set (p := floorTimes (random env (draws st1)) (len extra + 1)).
    assert (0 <= p <= len extra) as Hp.
    { pose proof (len_nonneg extra).
      pose proof (floorTimes_range (random env (draws st1)) (len extra + 1)).
      subst p. lia. }
    pose proof (slice_split extra p Hp) as Hsplit.
    exists (slice extra 0 p), (sliceFrom extra p), (afterDraw st1).
    rewrite (slice_whole base) by lia.
    assert (len (slice extra 0 p ++ base ++ sliceFrom extra p)
            = App.length app) as Htotal.
    { rewrite !len_app.
      assert (len (slice extra 0 p) + len (sliceFrom extra p) = len extra)
        as Hsum by (rewrite <- len_app, Hsplit; reflexivity).
      lia. }
    split; [reflexivity |]. split; [exact Hc |]. split; [exact Ha |].
    split; [exact Hbase |]. split; [now rewrite Hsplit |].
    split; [lia |]. split; [intros _; exact Htotal |].
    intros Hnone. congruence.
  - exists [], [], st. cbn [ret List.app]. rewrite app_nil_r.
    pose proof (slice_prefix_len base (App.length app) Hl) as Hslice.
    split; [reflexivity |]. split; [reflexivity |]. split; [reflexivity |].
    split; [exact Hbase |]. split; [constructor |].
    split; [lia |]. split; [| auto].
    intros Hany. rewrite Hany in E. cbn [andb] in E.
    apply Z.ltb_ge in E. lia.
Qed.

End ComposerMore.

Lemma character_mode_effects_witness :
  exists pw st',
    Passall.generatePassword 16 allClasses CaseLower flaky initial
      = (Normal pw, st') /\
    Older.generatePassword 16 allClasses CaseLower flaky initial
      = (Normal pw, st') /\
    apiIndex st' = apiIndex initial /\ attempts st' = attempts initial /\
    draws st' =
      (draws initial + (if anyClass allClasses then Z.to_nat 16 else 0))%nat /\
    len pw = (if anyClass allClasses then Z.max 0 16 else 0).
Proof.
  apply (character_mode_effects 16 allClasses CaseLower flaky initial).
  reflexivity.
Defined.

Lemma word_and_classes_exact_length_witness :
  exists cw st2 pre post st3,
    applyWordCase (js "oasis") CaseUpper offline (afterDraw (afterRound 5))
      = (Normal cw, st2) /\
    Older.generatePassword 5 lettersAndWord CaseUpper offline initial
      = (Normal (pre ++ slice cw 0 5 ++ post), st3) /\
    len (pre ++ slice cw 0 5 ++ post) = 5 /\
    Forall (fun c => In c (charSetOf lettersAndWord)) (pre ++ post).
Proof.
  apply (proj2 (word_and_classes_exact_length 5 lettersAndWord CaseUpper
                  offline initial ltac:(lia) eq_refl eq_refl)
           (js "oasis") (afterDraw (afterRound 5))).
  reflexivity.
Defined.

Lemma applyWordCase_only_case_witness :
  exists cw st',
    applyWordCase (js "Kiwi-42") CaseRandom flaky initial = (Normal cw, st') /\
    len cw = len (js "Kiwi-42") /\
    map asciiLower cw = map asciiLower (js "Kiwi-42") /\
    (CaseRandom = CaseLower -> noUpper cw = true) /\
    (CaseRandom = CaseUpper -> noLower cw = true) /\
    apiIndex st' = apiIndex initial /\ attempts st' = attempts initial.
Proof.
  apply (applyWordCase_only_case (js "Kiwi-42") CaseRandom flaky initial).
  reflexivity.
Defined.


Lemma non_string_word_rejects_witness :
  exists v st1 r st3,
    Passall.fetchRandomWord (Z.min 12 8) misshapen initial = (Normal v, st1) /\
    Passall.generatePassword 12 lettersAndWord CaseLower misshapen initial
      = (r, st3) /\
    ((exists word, v = JsonString word) <-> (exists pw, r = Normal pw)) /\
    ((forall word, v <> JsonString word) -> r = Throw TypeError /\ st3 = st1).
Proof.
  apply (proj1 (non_string_word_rejects 12 lettersAndWord CaseLower misshapen
                  initial ltac:(lia) eq_refl)).
Defined.

Lemma cipher_mode_witness :
  exists pre post st',
    App.handleGenerate cipherPage flaky initial
      = (Normal {| App.password :=
                     pre ++ slice (js "Dwwdfn Dw Gdzq") 0 16 ++ post;
                   App.caesarVisual :=
                     Some (js "Attack At Dawn", js "Dwwdfn Dw Gdzq") |},
         st') /\
    apiIndex st' = apiIndex initial /\ attempts st' = attempts initial.
Proof.
  destruct (cipher_mode cipherPage flaky initial eq_refl ltac:(cbn; lia))
    as (pre & post & st' & Hrun & Hc & Ha & _).
  exists pre, post, st'. split; [exact Hrun |]. split; assumption.
Defined.

(** ** [toggleOption] *)

(** X14. Toggling an option flips that option and no other; toggling it
    twice restores the options; toggles of two options commute. *)
Theorem toggleOption_flips (key : App.Key) (prev : Options.t) :
  App.get (App.toggleOption key prev) key = negb (App.get prev key) /\
  (forall k, k <> key -> App.get (App.toggleOption key prev) k = App.get prev k) /\
  App.toggleOption key (App.toggleOption key prev) = prev /\
  (forall k, App.toggleOption k (App.toggleOption key prev)
             = App.toggleOption key (App.toggleOption k prev)).
Proof.
  destruct prev as [l u n s w].
  split; [destruct key; reflexivity |].
  split; [intros k Hk; destruct key, k; congruence || reflexivity |].
  split; [destruct key, l, u, n, s, w; reflexivity |].
  intros k. destruct key, k; reflexivity.
Qed.

Section Generators.

Context `{Engine}.

Lemma charAt_nil i : charAt [] i = [].
Proof.
  unfold charAt. destruct (i <? 0); [reflexivity |].
  now destruct (Z.to_nat i).
Qed.

Lemma randomCharsLoop_nil n result env st :
  exists st',
    randomCharsLoop n [] result env st = (Normal result, st') /\
    readsTape st st' n.
Proof.
  revert st. induction n as [| n IH]; intros st.
  - exists st. split; [reflexivity |]. unfold readsTape. repeat split; lia.
  - cbn [randomCharsLoop]. unfold bind at 1, mathRandom. fold (afterDraw st).
    rewrite charAt_nil, app_nil_r.
    destruct (IH (afterDraw st)) as (st' & Hrun & Hc & Ha & Hd).
    exists st'. split; [exact Hrun |].
    unfold readsTape. cbn [afterDraw apiIndex draws attempts] in *.
    repeat split; lia || congruence.
Qed.

(** X15. [generateRandomChars] for every length and every set: it calls
    [Math.random] once per requested unit and contacts no provider; from a
    non-empty set it returns max(0, length) units, all of the set; from the
    empty set it returns the empty string, however many units were asked
    for. *)
Theorem generateRandomChars_result
    (length : Z) (charSet : jsstring) (env : Env) (st : State) :
  exists w st',
    generateRandomChars length charSet env st = (Normal w, st') /\
    readsTape st st' (Z.to_nat length) /\
    Forall (fun c => In c charSet) w /\
    len w = (if truthy charSet then Z.max 0 length else 0).
Proof.
  destruct charSet as [| c0 rest] eqn:E.
  - destruct (randomCharsLoop_nil (Z.to_nat length) [] env st)
      as (st' & Hrun & Hst).
    exists [], st'. unfold generateRandomChars. rewrite Hrun.
    split; [reflexivity |]. split; [exact Hst |].
    split; [constructor | reflexivity].
  - rewrite <- E.
    destruct (randomCharsLoop_spec (Z.to_nat length) charSet [] env st)
      as (w & st' & Hrun & Hst & Hlen & Hall); [rewrite E; discriminate |].
    exists w, st'. unfold generateRandomChars. cbn [List.app] in Hrun.
    split; [exact Hrun |]. split; [exact Hst |]. split; [exact Hall |].
    rewrite E. cbn [truthy]. unfold len. lia.
Qed.

(** X16. [generateFallbackWord] for every length: it calls [Math.random]
    once per letter and contacts no provider; the word has max(0, length)
    letters, so none for a length <= 0; and every letter is a lowercase
    ASCII letter, consonants and vowels alternating from a consonant. *)
Theorem generateFallbackWord_result (length : Z) (env : Env) (st : State) :
  exists w st',
    generateFallbackWord length env st = (Normal w, st') /\
    readsTape st st' (Z.to_nat length) /\
    len w = Z.max 0 length /\
    allLower w = true /\ alternates w.
Proof.
  destruct (generateFallbackWord_spec length env st)
    as (w & st' & Hrun & Hst & Hlen & Halt).
  exists w, st'. split; [exact Hrun |]. split; [exact Hst |].
  split; [exact Hlen |]. split; [now apply alternates_allLower | exact Halt].
Qed.

End Generators.

Lemma toggleOption_flips_witness :
  App.get (App.toggleOption App.KWord allClasses) App.KSymbols
    = App.get allClasses App.KSymbols.
Proof.
  apply (proj1 (proj2 (toggleOption_flips App.KWord allClasses)) App.KSymbols).
  discriminate.
Defined.
